(** * Lift simulation: the request queue and the trip scheduler of [App.tsx]

    The React component [App] of [src/App.tsx] keeps the cabin in hook state
    ([useState]), the request queue and the in-progress flag in refs
    ([useRef]), and drives the cabin from one asynchronous function,
    [processQueue], which suspends at every [await delay(..)].

    The embedding follows the component as written:
    - hook state is a record [Hooks]; a handler reads the values of the
      latest render, and every handler or timer continuation runs to its
      next suspension point before the next one starts (one JavaScript
      thread), after which the component is rendered again;
    - the two refs are fields of the record [World], read and written in
      place;
    - an invocation of [processQueue] is a closure over the [currentFloor]
      and [isDoorOpen] of the render that created it ([useCallback] with
      these two dependencies); the values are bound once and stay what they
      were for the whole run of the invocation.  A suspended invocation is a
      [Coroutine]: the two captured values, the suspension point and the
      locals alive there;
    - the audio cues ([announceDoor], [announceDirection],
      [announceArrival]) are recorded in order in [played].

    Two fields are instrumentation only and are never read by the embedded
    code: [trips], the number of targets dequeued so far, and the [origin]
    of a cue (the number of the trip that played it, or [None] for a cue
    played by a click handler). *)

From Stdlib Require Import ZArith Lia.
From stdpp Require Import base option list strings gmap.

Local Open Scope string_scope.

(** ** Floor registry (line 5) *)

Definition FLOORS : list string :=
  ["B2"; "B1"; "F1"; "F2"; "F3"; "F4"; "F5"; "F6"; "F7"; "F8"; "F9"; "F10"].

(** [Array.prototype.indexOf]: the first position holding [x], [-1] when
    there is none. *)
Fixpoint indexOf (l : list string) (x : string) : Z :=
  match l with
  | [] => (-1)%Z
  | y :: l' =>
      if decide (y = x) then 0%Z
      else let r := indexOf l' x in
           if (r <? 0)%Z then (-1)%Z else (r + 1)%Z
  end.

(** [Array.prototype.slice(start, end)]: a negative bound counts from the
    end of the array, both bounds are clamped to the array, and an empty
    range gives the empty array. *)
Definition slice {A} (l : list A) (start fin : Z) : list A :=
  let len := Z.of_nat (length l) in
  let k := if (start <? 0)%Z then Z.max (len + start) 0 else Z.min start len in
  let final := if (fin <? 0)%Z then Z.max (len + fin) 0 else Z.min fin len in
  take (Z.to_nat (final - k)) (drop (Z.to_nat k) l).

(** Line 84. *)
Definition getFloorIndex (floor : string) : Z := indexOf FLOORS floor.

(** ** Travel planning (lines 129-131 and 142-144) *)

Inductive Dir := up | down.

#[global] Instance Dir_eq_dec : EqDecision Dir.
Proof. solve_decision. Defined.

Definition planDir (currentIdx targetIdx : Z) : Dir :=
  if (targetIdx >? currentIdx)%Z then up else down.

Definition floorsToPass (dir : Dir) (currentIdx targetIdx : Z) : list string :=
  match dir with
  | up => slice FLOORS (currentIdx + 1) (targetIdx + 1)
  | down => reverse (slice FLOORS targetIdx currentIdx)
  end.

(** The two steps together, as the scheduler computes them for one trip. *)
Definition plan (from to : string) : Dir * list string :=
  let currentIdx := getFloorIndex from in
  let targetIdx := getFloorIndex to in
  let dir := planDir currentIdx targetIdx in
  (dir, floorsToPass dir currentIdx targetIdx).

(** ** Component state *)

Inductive View := inside | outside.

#[global] Instance View_eq_dec : EqDecision View.
Proof. solve_decision. Defined.

(** The [useState] hooks of lines 53-63. *)
Record Hooks := mkHooks {
  currentView : View;
  currentFloor : string;
  targetFloor : option string;
  isMoving : bool;
  isDoorOpen : bool;
  selectedFloors : gset string;
  direction : option Dir;
  displayFloor : string;
  callDirection : option Dir;
  outsideFloor : string;
  audioLoaded : bool
}.

(** Audio cues: the file names handed to [playAudio]. *)
Inductive Cue :=
| door_open
| door_close
| going_up
| going_down
| arrive (floor : string).

#[global] Instance Cue_eq_dec : EqDecision Cue.
Proof. solve_decision. Defined.

Record Event := mkEvent { origin : option nat; cue : Cue }.

#[global] Instance Event_eq_dec : EqDecision Event.
Proof. solve_decision. Defined.

(** Suspension points of [processQueue], with the locals alive there. *)
Inductive Pc :=
| AwaitDoorClosed (target : string)                       (* line 125 *)
| AwaitDeparture (target : string) (dir : Dir)
                 (currentIdx targetIdx : Z)               (* line 136 *)
| AwaitFloor (target floor : string) (rest : list string) (* line 147 *)
| AwaitArrival (target : string)                          (* line 157 *)
| AwaitSettle.                                            (* line 170 *)

(** A suspended invocation of [processQueue]: the two values its closure
    captured, where it waits, and the number of the trip it is on. *)
Record Coroutine := mkCoroutine {
  cl_currentFloor : string;
  cl_isDoorOpen : bool;
  pc : Pc;
  trip : nat
}.

Record World := mkWorld {
  hooks : Hooks;
  elevatorQueue : list string;   (* elevatorQueue.current, line 65 *)
  isProcessing : bool;           (* isProcessing.current, line 66 *)
  suspended : list Coroutine;    (* invocations waiting at an await *)
  played : list Event;           (* cues, oldest first *)
  trips : nat                    (* targets dequeued so far *)
}.

(** *** Setters *)

Definition withHooks (f : Hooks -> Hooks) (w : World) : World :=
  mkWorld (f (hooks w)) (elevatorQueue w) (isProcessing w) (suspended w)
          (played w) (trips w).

Definition setCurrentView (v : View) : World -> World :=
  withHooks (fun h =>
    mkHooks v (currentFloor h) (targetFloor h) (isMoving h) (isDoorOpen h)
            (selectedFloors h) (direction h) (displayFloor h)
            (callDirection h) (outsideFloor h) (audioLoaded h)).

Definition setCurrentFloor (f : string) : World -> World :=
  withHooks (fun h =>
    mkHooks (currentView h) f (targetFloor h) (isMoving h) (isDoorOpen h)
            (selectedFloors h) (direction h) (displayFloor h)
            (callDirection h) (outsideFloor h) (audioLoaded h)).

Definition setTargetFloor (t : option string) : World -> World :=
  withHooks (fun h =>
    mkHooks (currentView h) (currentFloor h) t (isMoving h) (isDoorOpen h)
            (selectedFloors h) (direction h) (displayFloor h)
            (callDirection h) (outsideFloor h) (audioLoaded h)).

Definition setIsMoving (b : bool) : World -> World :=
  withHooks (fun h =>
    mkHooks (currentView h) (currentFloor h) (targetFloor h) b (isDoorOpen h)
            (selectedFloors h) (direction h) (displayFloor h)
            (callDirection h) (outsideFloor h) (audioLoaded h)).

Definition setIsDoorOpen (b : bool) : World -> World :=
  withHooks (fun h =>
    mkHooks (currentView h) (currentFloor h) (targetFloor h) (isMoving h) b
            (selectedFloors h) (direction h) (displayFloor h)
            (callDirection h) (outsideFloor h) (audioLoaded h)).

Definition setSelectedFloors (f : gset string -> gset string) : World -> World :=
  withHooks (fun h =>
    mkHooks (currentView h) (currentFloor h) (targetFloor h) (isMoving h)
            (isDoorOpen h) (f (selectedFloors h)) (direction h)
            (displayFloor h) (callDirection h) (outsideFloor h)
            (audioLoaded h)).

Definition setDirection (d : option Dir) : World -> World :=
  withHooks (fun h =>
    mkHooks (currentView h) (currentFloor h) (targetFloor h) (isMoving h)
            (isDoorOpen h) (selectedFloors h) d (displayFloor h)
            (callDirection h) (outsideFloor h) (audioLoaded h)).

Definition setDisplayFloor (f : string) : World -> World :=
  withHooks (fun h =>
    mkHooks (currentView h) (currentFloor h) (targetFloor h) (isMoving h)
            (isDoorOpen h) (selectedFloors h) (direction h) f
            (callDirection h) (outsideFloor h) (audioLoaded h)).

Definition setCallDirection (d : option Dir) : World -> World :=
  withHooks (fun h =>
    mkHooks (currentView h) (currentFloor h) (targetFloor h) (isMoving h)
            (isDoorOpen h) (selectedFloors h) (direction h) (displayFloor h)
            d (outsideFloor h) (audioLoaded h)).

Definition setOutsideFloor (f : string) : World -> World :=
  withHooks (fun h =>
    mkHooks (currentView h) (currentFloor h) (targetFloor h) (isMoving h)
            (isDoorOpen h) (selectedFloors h) (direction h) (displayFloor h)
            (callDirection h) f (audioLoaded h)).

Definition setAudioLoaded (b : bool) : World -> World :=
  withHooks (fun h =>
    mkHooks (currentView h) (currentFloor h) (targetFloor h) (isMoving h)
            (isDoorOpen h) (selectedFloors h) (direction h) (displayFloor h)
            (callDirection h) (outsideFloor h) b).

Definition setQueue (q : list string) (w : World) : World :=
  mkWorld (hooks w) q (isProcessing w) (suspended w) (played w) (trips w).

Definition setProcessing (b : bool) (w : World) : World :=
  mkWorld (hooks w) (elevatorQueue w) b (suspended w) (played w) (trips w).

Definition setSuspended (l : list Coroutine) (w : World) : World :=
  mkWorld (hooks w) (elevatorQueue w) (isProcessing w) l (played w) (trips w).

Definition countTrip (w : World) : World :=
  mkWorld (hooks w) (elevatorQueue w) (isProcessing w) (suspended w)
          (played w) (S (trips w)).

(** [playAudio] (lines 27-34) as the scheduler sees it: the cue is recorded;
    whether the browser plays the file is not observable to the component. *)
Definition playAudio (o : option nat) (c : Cue) (w : World) : World :=
  mkWorld (hooks w) (elevatorQueue w) (isProcessing w) (suspended w)
          (played w ++ [mkEvent o c]) (trips w).

(** *** Announcements (lines 37-49) *)

Inductive DoorAction := open | close.

Definition announceDoor (o : option nat) (action : DoorAction) : World -> World :=
  playAudio o (match action with open => door_open | close => door_close end).

Definition announceDirection (o : option nat) (d : Dir) : World -> World :=
  playAudio o (match d with up => going_up | down => going_down end).

Definition announceArrival (o : option nat) (floor : string) : World -> World :=
  playAudio o (arrive floor).

(** Lines 69-74. *)
Definition initAudio (w : World) : World :=
  if audioLoaded (hooks w) then w else setAudioLoaded true w.

(** ** The trip scheduler: [processQueue] (lines 112-175)

    [cf] and [dopen] are the [currentFloor] and [isDoorOpen] bound in the
    closure.  Each function below runs one stretch of the body, from a
    resumption to the next [await], and returns the world with the
    suspended rest of the invocation ([None] when it returned). *)

Definition Stretch : Type := World * option Coroutine.

(** Lines 128-136. *)
Definition announceAndWait (cf : string) (dopen : bool) (t : nat)
    (target : string) (w : World) : Stretch :=
  let currentIdx := getFloorIndex cf in
  let targetIdx := getFloorIndex target in
  let dir := planDir currentIdx targetIdx in
  let w := setDirection (Some dir) w in
  let w := announceDirection (Some t) dir w in
  (w, Some (mkCoroutine cf dopen (AwaitDeparture target dir currentIdx targetIdx) t)).

(** The loop test of line 117 with the body up to its first [await]
    (lines 118-126), and lines 173-174 after the loop. *)
Definition loopTest (cf : string) (dopen : bool) (w : World) : Stretch :=
  match elevatorQueue w with
  | target :: q =>
      let t := trips w in
      let w := countTrip (setQueue q w) in
      let w := setTargetFloor (Some target) w in
      if dopen then
        let w := setIsDoorOpen false w in
        let w := announceDoor (Some t) close w in
        (w, Some (mkCoroutine cf dopen (AwaitDoorClosed target) t))
      else announceAndWait cf dopen t target w
  | [] =>
      let w := setProcessing false w in
      (setTargetFloor None w, None)
  end.

(** The [for] loop of lines 146-150 up to its next [await], and lines
    152-157 once the floors are exhausted. *)
Definition forLoop (cf : string) (dopen : bool) (t : nat) (target : string)
    (floors : list string) (w : World) : Stretch :=
  match floors with
  | floor :: rest =>
      (w, Some (mkCoroutine cf dopen (AwaitFloor target floor rest) t))
  | [] =>
      let w := setIsMoving false w in
      let w := setDirection None w in
      let w := announceArrival (Some t) target w in
      (w, Some (mkCoroutine cf dopen (AwaitArrival target) t))
  end.

(** Resumption of a suspended invocation when its timer fires. *)
Definition resume (c : Coroutine) (w : World) : Stretch :=
  let cf := cl_currentFloor c in
  let dopen := cl_isDoorOpen c in
  let t := trip c in
  match pc c with
  | AwaitDoorClosed target => announceAndWait cf dopen t target w
  | AwaitDeparture target dir currentIdx targetIdx =>
      let w := setIsMoving true w in
      forLoop cf dopen t target (floorsToPass dir currentIdx targetIdx) w
  | AwaitFloor target floor rest =>
      let w := setCurrentFloor floor w in
      let w := setDisplayFloor floor w in
      forLoop cf dopen t target rest w
  | AwaitArrival target =>
      let w := setIsDoorOpen true w in
      let w := announceDoor (Some t) open w in
      let w := setSelectedFloors (fun prev => prev ∖ {[target]}) w in
      (w, Some (mkCoroutine cf dopen AwaitSettle t))
  | AwaitSettle => loopTest cf dopen w
  end.

(** A call of [processQueue] from a handler: lines 113-115, then the loop. *)
Definition processQueue (cf : string) (dopen : bool) (w : World) : World :=
  if isProcessing w || (length (elevatorQueue w) =? 0)%nat then w
  else
    let w := setProcessing true w in
    let '(w, k) := loopTest cf dopen w in
    setSuspended (suspended w ++ option_list k) w.

(** The timer of the [i]-th suspended invocation fires. *)
Definition tick (i : nat) (w : World) : World :=
  match suspended w !! i with
  | None => w
  | Some c =>
      let '(w', k) := resume c w in
      match k with
      | Some c' => setSuspended (<[i := c']> (suspended w')) w'
      | None => setSuspended (delete i (suspended w')) w'
      end
  end.

(** ** Click handlers *)

(** Lines 87-102.  The handler and the [processQueue] it calls belong to
    the same render, so the closure captures the floor and door state the
    handler sees. *)
Definition handleFloorSelect (floor : string) (w : World) : World :=
  let h := hooks w in
  let w := initAudio w in
  if bool_decide (floor = currentFloor h) && negb (isMoving h) && isDoorOpen h
  then w
  else if negb (bool_decide (floor ∈ selectedFloors h)) then
    let w := setSelectedFloors (fun prev => prev ∪ {[floor]}) w in
    let w := setQueue (elevatorQueue w ++ [floor]) w in
    if negb (isProcessing w)
    then processQueue (currentFloor h) (isDoorOpen h) w
    else w
  else w.

(** Lines 178-189. *)
Definition handleCallElevator (dir : Dir) (w : World) : World :=
  let h := hooks w in
  let w := initAudio w in
  let w := setCallDirection (Some dir) w in
  let w := announceDirection None dir w in
  if negb (bool_decide (currentFloor h = outsideFloor h)) || isMoving h then
    let w := setQueue (outsideFloor h :: elevatorQueue w) w in
    if negb (isProcessing w)
    then processQueue (currentFloor h) (isDoorOpen h) w
    else w
  else w.

(** Lines 192-200. *)
Definition toggleView (w : World) : World :=
  let h := hooks w in
  let w := initAudio w in
  match currentView h with
  | inside => setCurrentView outside (setOutsideFloor (currentFloor h) w)
  | outside => setCurrentView inside w
  end.

(** Lines 203-206. *)
Definition handleOutsideFloorSelect (floor : string) (w : World) : World :=
  setOutsideFloor floor (initAudio w).

(** Lines 209-215. *)
Definition handleDoorOpen (w : World) : World :=
  let h := hooks w in
  let w := initAudio w in
  if negb (isMoving h) then announceDoor None open (setIsDoorOpen true w)
  else w.

(** Lines 217-223. *)
Definition handleDoorClose (w : World) : World :=
  let h := hooks w in
  let w := initAudio w in
  if negb (isMoving h) then announceDoor None close (setIsDoorOpen false w)
  else w.

(** ** Runs of the component *)

Inductive Op :=
| SelectFloor (floor : string)
| OutsideFloorSelect (floor : string)
| CallElevator (dir : Dir)
| ToggleView
| DoorOpen
| DoorClose
| Tick (i : nat).

Definition step (o : Op) (w : World) : World :=
  match o with
  | SelectFloor f => handleFloorSelect f w
  | OutsideFloorSelect f => handleOutsideFloorSelect f w
  | CallElevator d => handleCallElevator d w
  | ToggleView => toggleView w
  | DoorOpen => handleDoorOpen w
  | DoorClose => handleDoorClose w
  | Tick i => tick i w
  end.

Definition run (ops : list Op) (w : World) : World :=
  foldl (fun w o => step o w) w ops.

(** Lines 53-66: the initial render. *)
Definition init : World :=
  mkWorld (mkHooks inside "F1" None false true ∅ None "F1" None "F1" false)
          [] false [] [] 0.

(** The operations of the specification's interface. *)
Definition selectFloor (f : string) : list Op := [SelectFloor f].
Definition callFromOutside (f : string) (d : Dir) : list Op :=
  [OutsideFloorSelect f; CallElevator d].
Definition requestDoorOpen : list Op := [DoorOpen].
Definition requestDoorClose : list Op := [DoorClose].

(** What the rendered page lets the user do (lines 239-361): floor and door
    buttons exist in the inside view and are disabled as written there, the
    floor selector and the call buttons exist in the outside view. *)
Definition enabled (o : Op) (w : World) : bool :=
  let h := hooks w in
  match o with
  | SelectFloor f =>
      bool_decide (currentView h = inside) && bool_decide (f ∈ FLOORS)
      && negb (isMoving h)
  | DoorOpen =>
      bool_decide (currentView h = inside) && negb (isMoving h || isDoorOpen h)
  | DoorClose =>
      bool_decide (currentView h = inside)
      && negb (isMoving h || negb (isDoorOpen h))
  | OutsideFloorSelect f =>
      bool_decide (currentView h = outside) && bool_decide (f ∈ FLOORS)
  | CallElevator _ => bool_decide (currentView h = outside)
  | ToggleView => true
  | Tick i => bool_decide (i < length (suspended w))%nat
  end.

Fixpoint clickable (ops : list Op) (w : World) : bool :=
  match ops with
  | [] => true
  | o :: ops' => enabled o w && clickable ops' (step o w)
  end.

(** ** Invariants and observations *)

(** What the hook state must be at each suspension point. *)
Definition phaseOK (h : Hooks) (p : Pc) : Prop :=
  match p with
  | AwaitDoorClosed t =>
      isMoving h = false /\ direction h = None /\ targetFloor h = Some t
  | AwaitDeparture t d _ _ =>
      isMoving h = false /\ direction h = Some d /\ targetFloor h = Some t
  | AwaitFloor t _ _ =>
      isMoving h = true /\ is_Some (direction h) /\ targetFloor h = Some t
  | AwaitArrival t =>
      isMoving h = false /\ direction h = None /\ targetFloor h = Some t
  | AwaitSettle =>
      isMoving h = false /\ direction h = None /\ is_Some (targetFloor h)
  end.

(** No invocation of [processQueue] is alive: the flag is down, the queue
    is empty and the cabin is at rest. *)
Definition Idle (w : World) : Prop :=
  isProcessing w = false /\ elevatorQueue w = []
  /\ isMoving (hooks w) = false /\ direction (hooks w) = None
  /\ targetFloor (hooks w) = None.

(** The invocation [c] is alive: the flag is up, [c] is on the latest trip
    and the hook state is the one of its suspension point. *)
Definition Running (w : World) (c : Coroutine) : Prop :=
  isProcessing w = true /\ S (trip c) = trips w
  /\ audioLoaded (hooks w) = true /\ phaseOK (hooks w) (pc c).

(** At most one invocation is alive. *)
Definition SchedInv (w : World) : Prop :=
  match suspended w with
  | [] => Idle w
  | [c] => Running w c
  | _ => False
  end.

(** Trip numbers never decrease along the cue log. *)
Definition Mono (l : list Event) : Prop :=
  forall (i j : nat) e e' t t',
    (i <= j)%nat -> l !! i = Some e -> l !! j = Some e' ->
    origin e = Some t -> origin e' = Some t' -> (t <= t')%nat.

Definition Bound (l : list Event) (n : nat) : Prop :=
  forall e t, e ∈ l -> origin e = Some t -> (t < n)%nat.

Definition LogInv (w : World) : Prop :=
  Mono (played w) /\ Bound (played w) (trips w).

(** What a stretch of [processQueue] started in [w0] leaves behind. *)
Definition StretchPost (w0 : World) (r : Stretch) : Prop :=
  suspended r.1 = suspended w0 /\ LogInv r.1
  /\ match r.2 with Some c => Running r.1 c | None => Idle r.1 end.

(** The fields a manual door request has no business with. *)
Definition sameExceptDoor (w w' : World) : Prop :=
  currentFloor (hooks w') = currentFloor (hooks w)
  /\ targetFloor (hooks w') = targetFloor (hooks w)
  /\ direction (hooks w') = direction (hooks w)
  /\ isMoving (hooks w') = isMoving (hooks w)
  /\ selectedFloors (hooks w') = selectedFloors (hooks w)
  /\ elevatorQueue w' = elevatorQueue w
  /\ isProcessing w' = isProcessing w
  /\ suspended w' = suspended w
  /\ displayFloor (hooks w') = displayFloor (hooks w)
  /\ currentView (hooks w') = currentView (hooks w)
  /\ outsideFloor (hooks w') = outsideFloor (hooks w)
  /\ callDirection (hooks w') = callDirection (hooks w).

(** The cues played by trips, without those of click handlers. *)
Definition tripCues (w : World) : list (nat * Cue) :=
  omap (fun e => (fun t => (t, cue e)) <$> origin e) (played w).

(** Two worlds that differ at most in the recorded call direction and in
    the cues played by click handlers. *)
Definition sameRouting (w w' : World) : Prop :=
  elevatorQueue w' = elevatorQueue w
  /\ isProcessing w' = isProcessing w
  /\ suspended w' = suspended w
  /\ trips w' = trips w
  /\ tripCues w' = tripCues w
  /\ currentFloor (hooks w') = currentFloor (hooks w)
  /\ targetFloor (hooks w') = targetFloor (hooks w)
  /\ isMoving (hooks w') = isMoving (hooks w)
  /\ isDoorOpen (hooks w') = isDoorOpen (hooks w)
  /\ selectedFloors (hooks w') = selectedFloors (hooks w)
  /\ direction (hooks w') = direction (hooks w)
  /\ displayFloor (hooks w') = displayFloor (hooks w)
  /\ outsideFloor (hooks w') = outsideFloor (hooks w).

(** The suspension points between the direction announcement and the
    arrival. *)
Definition announced (p : Pc) : bool :=
  match p with
  | AwaitDeparture _ _ _ _ | AwaitFloor _ _ _ => true
  | _ => false
  end.

(** The target an invocation has dequeued and not yet served. *)
Definition inFlight (p : Pc) : option string :=
  match p with
  | AwaitDoorClosed t | AwaitDeparture t _ _ _ | AwaitFloor t _ _
  | AwaitArrival t => Some t
  | AwaitSettle => None
  end.

(** What a stretch does to the queue and to the selected set. *)
Definition dequeues (w : World) (r : Stretch) : Prop :=
  selectedFloors (hooks r.1) = selectedFloors (hooks w)
  /\ match elevatorQueue w with
     | [] => r.2 = None /\ elevatorQueue r.1 = []
     | t :: q =>
         elevatorQueue r.1 = q
         /\ exists c, r.2 = Some c /\ inFlight (pc c) = Some t
     end.

(** Every lit floor button is a request still in the queue or in flight. *)
Definition SelInv (w : World) : Prop :=
  forall f, f ∈ selectedFloors (hooks w) ->
    f ∈ elevatorQueue w
    \/ exists c, c ∈ suspended w /\ inFlight (pc c) = Some f.

(** With cabin selections only: the queue holds no floor twice, every queued
    floor has its button lit, and a target in flight keeps its button lit
    and is not in the queue. *)
Definition QueueInv (w : World) : Prop :=
  NoDup (elevatorQueue w)
  /\ (forall f, f ∈ elevatorQueue w -> f ∈ selectedFloors (hooks w))
  /\ (forall c t, c ∈ suspended w -> inFlight (pc c) = Some t ->
        t ∈ selectedFloors (hooks w) /\ t ∉ elevatorQueue w).

Definition isHallCall (o : Op) : bool :=
  match o with CallElevator _ => true | _ => false end.


(** ** Observations used by the further properties *)

(** The floors a suspended invocation has still to pass. *)
Definition pcFloors (p : Pc) : list string :=
  match p with
  | AwaitFloor _ floor rest => floor :: rest
  | _ => []
  end.

(** The cabin and its display are at the same registry floor, and the
    floors still to be passed are registry floors, at most twelve. *)
Definition FloorInv (w : World) : Prop :=
  currentFloor (hooks w) ∈ FLOORS
  /\ displayFloor (hooks w) = currentFloor (hooks w)
  /\ forall c, c ∈ suspended w ->
       (length (pcFloors (pc c)) <= 12)%nat
       /\ forall f, f ∈ pcFloors (pc c) -> f ∈ FLOORS.

(** An upper bound on the timer expiries a suspended invocation needs to
    reach its next loop test, and on those one queued target needs. *)
Definition rank (p : Pc) : nat :=
  match p with
  | AwaitDoorClosed _ => 17
  | AwaitDeparture _ _ _ _ => 16
  | AwaitFloor _ _ rest => 3 + length rest
  | AwaitArrival _ => 2
  | AwaitSettle => 1
  end.

Definition fuel (w : World) : nat :=
  match suspended w with
  | [c] => rank (pc c) + 18 * length (elevatorQueue w)
  | _ => 0
  end.

(** Letting the timers run with no further click. *)
Definition drain (w : World) : World := run (replicate (fuel w) (Tick 0)) w.

(** The floors whose arrival has been announced, oldest first. *)
Definition arrivals (l : list Event) : list string :=
  omap (fun e => match cue e with arrive f => Some f | _ => None end) l.

(** The target of the running trip while its arrival is not announced. *)
Definition toAnnounce (p : Pc) : list string :=
  match p with
  | AwaitDoorClosed t | AwaitDeparture t _ _ _ | AwaitFloor t _ _ => [t]
  | AwaitArrival _ | AwaitSettle => []
  end.

Definition announcing (w : World) : list string :=
  match suspended w with
  | [c] => toAnnounce (pc c)
  | _ => []
  end.

(** The targets still to be announced: the one in flight, then the queue. *)
Definition pendingTargets (w : World) : list string :=
  (announcing w ++ elevatorQueue w)%list.

(** The door is open whenever the scheduler is between two trips. *)
Definition doorReady (w : World) : Prop :=
  match suspended w with
  | [] => isDoorOpen (hooks w) = true
  | [c] => pc c = AwaitSettle -> isDoorOpen (hooks w) = true
  | _ => True
  end.

(** Where the running trip will leave the cabin. *)
Definition restingFloor (w : World) : string :=
  let here := currentFloor (hooks w) in
  match suspended w with
  | [c] =>
      match pc c with
      | AwaitDoorClosed t => default here (last (plan (cl_currentFloor c) t).2)
      | AwaitDeparture _ d ci ti => default here (last (floorsToPass d ci ti))
      | AwaitFloor _ floor rest => default floor (last rest)
      | AwaitArrival _ | AwaitSettle => here
      end
  | _ => here
  end.

(** ** The order of the cues of a trip *)

(** The cue [announceDirection] asks for (lines 42-44). *)
Definition dirCue (d : Dir) : Cue :=
  match d with up => going_up | down => going_down end.

(** Where the cues of the trips have got to: between two trips, [next]
    being the number of the trip to come; after the door-close cue of trip
    [t]; after its direction cue, [closed] telling whether a door-close cue
    came before and [d] which direction was announced; after its arrival
    cue, [f] being the floor announced. *)
Inductive Proto :=
| Between (next : nat)
| Closed (t : nat)
| Announced (t : nat) (closed : bool) (d : Dir)
| Arrived (t : nat) (closed : bool) (f : string).

(** One cue of trip [e.1]: the only cues accepted are the door-close or the
    direction cue of the trip to come, the direction cue after the
    door-close, the arrival after the direction, the door-open after the
    arrival. *)
Definition cueStep (p : Proto) (e : nat * Cue) : option Proto :=
  match p, e.2 with
  | Between n, door_close =>
      if bool_decide (n = e.1) then Some (Closed n) else None
  | Between n, going_up =>
      if bool_decide (n = e.1) then Some (Announced n false up) else None
  | Between n, going_down =>
      if bool_decide (n = e.1) then Some (Announced n false down) else None
  | Closed t, going_up =>
      if bool_decide (t = e.1) then Some (Announced t true up) else None
  | Closed t, going_down =>
      if bool_decide (t = e.1) then Some (Announced t true down) else None
  | Announced t b _, arrive f =>
      if bool_decide (t = e.1) then Some (Arrived t b f) else None
  | Arrived t _ _, door_open =>
      if bool_decide (t = e.1) then Some (Between (S t)) else None
  | _, _ => None
  end.

Definition protocol (p : Proto) (l : list (nat * Cue)) : option Proto :=
  foldl (fun acc e => acc ≫= fun q => cueStep q e) (Some p) l.

(** The cue that leads into a position. *)
Definition lastCue (p : Proto) : option (nat * Cue) :=
  match p with
  | Between 0 => None
  | Between (S t) => Some (t, door_open)
  | Closed t => Some (t, door_close)
  | Announced t _ d => Some (t, dirCue d)
  | Arrived t _ f => Some (t, arrive f)
  end.

(** Where in the order of cues a suspended invocation is: the door-close
    cue was played when the closure holds the door open (line 122), the
    direction is the one planned from the closure's floor to the target
    (lines 129-131), the floor announced is the target (line 156). *)
Definition phase (c : Coroutine) (n : nat) : Proto :=
  match pc c with
  | AwaitDoorClosed _ => Closed (trip c)
  | AwaitDeparture target _ _ _ | AwaitFloor target _ _ =>
      Announced (trip c) (cl_isDoorOpen c)
        (planDir (getFloorIndex (cl_currentFloor c)) (getFloorIndex target))
  | AwaitArrival target => Arrived (trip c) (cl_isDoorOpen c) target
  | AwaitSettle => Between n
  end.

Definition protoOf (w : World) : Proto :=
  match suspended w with
  | [c] => phase c (trips w)
  | _ => Between (trips w)
  end.

Definition phaseK (k : option Coroutine) (n : nat) : Proto :=
  match k with
  | Some c => phase c n
  | None => Between n
  end.

(** An invocation waits for the door to close only if its closure holds the
    door open. *)
Definition closing (c : Coroutine) : Prop :=
  match pc c with
  | AwaitDoorClosed _ => cl_isDoorOpen c = true
  | _ => True
  end.

Definition ProtoInv (w : World) : Prop :=
  protocol (Between 0) (tripCues w) = Some (protoOf w)
  /\ forall c, c ∈ suspended w -> closing c.

(** What a stretch leaves for [ProtoInv]. *)
Definition ProtoPost (r : Stretch) : Prop :=
  protocol (Between 0) (tripCues r.1) = Some (phaseK r.2 (trips r.1))
  /\ forall c, r.2 = Some c -> closing c.

(** ** Audio files (lines 7-49) *)








(** ** Labels and the button panel *)

(** [s.replace('F', '')]: the first occurrence of the letter is removed. *)
Fixpoint replaceF (s : string) : string :=
  match s with
  | EmptyString => EmptyString
  | String a s' => if bool_decide (String a EmptyString = "F") then s' else String a (replaceF s')
  end.

(** Lines 77-81. *)
Definition getFloorDisplay (floor : string) : string :=
  if bool_decide (floor = "B2") then "-2"
  else if bool_decide (floor = "B1") then "-1"
  else replaceF floor.

(** Lines 105-109; the literals are the UTF-8 bytes of the source text. *)
Definition getFloorName (floor : string) : string :=
  if bool_decide (floor = "B2") then "负二楼"
  else if bool_decide (floor = "B1") then "负一楼"
  else replaceF floor +:+ "楼".





(** * Properties *)

(** ** Array primitives *)

Lemma indexOf_elem (l : list string) (x : string) :
  x ∈ l ->
  (0 <= indexOf l x < Z.of_nat (length l))%Z
  /\ l !! Z.to_nat (indexOf l x) = Some x.
Proof.
  induction l as [|y l IH]; intros Hx; [by apply not_elem_of_nil in Hx|].
  simpl. destruct (decide (y = x)) as [->|Hne].
  - split; [lia | done].
  - apply elem_of_cons in Hx as [->|Hx]; [done|].
    destruct (IH Hx) as [Hr Hl].
    destruct (Z.ltb_spec (indexOf l x) 0); [lia|].
    split; [lia|].
    replace (Z.to_nat (indexOf l x + 1)) with (S (Z.to_nat (indexOf l x))) by lia.
    done.
Qed.

Lemma indexOf_inj (l : list string) (x y : string) :
  x ∈ l -> y ∈ l -> indexOf l x = indexOf l y -> x = y.
Proof.
  intros Hx Hy E.
  destruct (indexOf_elem l x Hx) as [_ Lx].
  destruct (indexOf_elem l y Hy) as [_ Ly].
  rewrite E in Lx. congruence.
Qed.

Section Slice.
Context {A : Type}.
Implicit Types l : list A.

Lemma slice_in_range l (a b : Z) :
  (0 <= a)%Z -> (a <= b)%Z -> (b <= Z.of_nat (length l))%Z ->
  slice l a b = take (Z.to_nat (b - a)) (drop (Z.to_nat a) l).
Proof.
  intros Ha Hab Hb. unfold slice.
  destruct (Z.ltb_spec a 0); [lia|].
  destruct (Z.ltb_spec b 0); [lia|].
  by rewrite !Z.min_l by lia.
Qed.

Lemma slice_length l (a b : Z) :
  (0 <= a)%Z -> (a <= b)%Z -> (b <= Z.of_nat (length l))%Z ->
  Z.of_nat (length (slice l a b)) = (b - a)%Z.
Proof.
  intros Ha Hab Hb. rewrite slice_in_range by lia.
  rewrite length_take, length_drop. lia.
Qed.

Lemma slice_lookup l (a b : Z) (k : nat) :
  (0 <= a)%Z -> (a <= b)%Z -> (b <= Z.of_nat (length l))%Z ->
  (Z.of_nat k < b - a)%Z ->
  slice l a b !! k = l !! Z.to_nat (a + Z.of_nat k).
Proof.
  intros Ha Hab Hb Hk. rewrite slice_in_range by lia.
  rewrite lookup_take_lt by lia. rewrite lookup_drop.
  f_equal. lia.
Qed.

Lemma slice_empty l (a : Z) : slice l a a = [].
Proof.
  unfold slice. replace (_ - _)%Z with 0%Z by lia. done.
Qed.
End Slice.

(** ** Travel planner *)

Lemma getFloorIndex_elem (f : string) :
  f ∈ FLOORS ->
  (0 <= getFloorIndex f < 12)%Z /\ FLOORS !! Z.to_nat (getFloorIndex f) = Some f.
Proof. intros Hf. exact (indexOf_elem FLOORS f Hf). Qed.

Lemma single_of_last {A} (l : list A) (x : A) :
  length l = 1%nat -> last l = Some x -> l = [x].
Proof.
  destruct l as [|y [|z l]]; simpl; intros Hl Hx; try discriminate.
  congruence.
Qed.

(** C6: for distinct registry floors A and B the planned direction is up
    exactly when B lies above A and down otherwise; the pass sequence has
    |index B - index A| elements, its k-th element is the registry floor k+1
    places from A in the direction of travel (so it lists the floors
    strictly between A and B and then B, in travel order), it ends in B,
    and for adjacent floors it is B alone. *)
Theorem plan_direction_and_passes (A B : string) :
  A ∈ FLOORS -> B ∈ FLOORS -> A ≠ B ->
  let iA := getFloorIndex A in
  let iB := getFloorIndex B in
  let d := (plan A B).1 in
  let pass := (plan A B).2 in
  (d = up <-> (iB > iA)%Z) /\ (d = down <-> ¬ (iB > iA)%Z) /\
  Z.of_nat (length pass) = Z.abs (iB - iA) /\
  (forall k : nat, (k < length pass)%nat ->
     pass !! k = FLOORS !! Z.to_nat (match d with
                                     | up => iA + 1 + Z.of_nat k
                                     | down => iA - 1 - Z.of_nat k
                                     end)%Z) /\
  last pass = Some B /\
  (Z.abs (iB - iA) = 1%Z -> pass = [B]).
Proof.
  intros HA HB Hne iA iB d pass.
  destruct (getFloorIndex_elem A HA) as [RA LA].
  destruct (getFloorIndex_elem B HB) as [RB LB].
  fold iA in RA, LA. fold iB in RB, LB.
  assert (Hdist : iA ≠ iB).
  { intros E. apply Hne. by apply (indexOf_inj FLOORS). }
  assert (Hlen : Z.of_nat (length FLOORS) = 12%Z) by reflexivity.
  subst d pass. unfold plan. fold iA iB. unfold planDir. simpl.
  destruct (Z.gtb_spec iB iA) as [Hgt|Hle]; simpl.
  - (* travelling up *)
    assert (Hl : Z.of_nat (length (slice FLOORS (iA + 1) (iB + 1))) = (iB - iA)%Z).
    { rewrite slice_length by lia. lia. }
    assert (Hk : forall k : nat, (k < length (slice FLOORS (iA + 1) (iB + 1)))%nat ->
              slice FLOORS (iA + 1) (iB + 1) !! k
              = FLOORS !! Z.to_nat (iA + 1 + Z.of_nat k)).
    { intros k Hk. apply slice_lookup; lia. }
    assert (Hlast : last (slice FLOORS (iA + 1) (iB + 1)) = Some B).
    { rewrite last_lookup, Hk by lia. rewrite <- LB. f_equal. lia. }
    split; [split; [lia | done]|].
    split; [split; [done | lia]|].
    split; [lia|]. split; [done|]. split; [done|].
    intros Hadj. apply single_of_last; [lia | done].
  - (* travelling down *)
    assert (Hl : Z.of_nat (length (reverse (slice FLOORS iB iA))) = (iA - iB)%Z).
    { rewrite length_reverse, slice_length by lia. lia. }
    assert (Hk : forall k : nat, (k < length (reverse (slice FLOORS iB iA)))%nat ->
              reverse (slice FLOORS iB iA) !! k
              = FLOORS !! Z.to_nat (iA - 1 - Z.of_nat k)).
    { intros k Hk. rewrite length_reverse in Hk, Hl.
      rewrite reverse_lookup by done.
      rewrite slice_lookup by lia. f_equal. lia. }
    assert (Hlast : last (reverse (slice FLOORS iB iA)) = Some B).
    { rewrite last_lookup, Hk by lia. rewrite <- LB. f_equal. lia. }
    split; [split; [done | lia]|].
    split; [split; [lia | done]|].
    split; [lia|]. split; [done|]. split; [done|].
    intros Hadj. apply single_of_last; [lia | done].
Qed.

Lemma plan_direction_and_passes_witness :
  (plan "F1" "F5").1 = up /\ (plan "F1" "F5").2 = ["F2"; "F3"; "F4"; "F5"]
  /\ (plan "F5" "F4").2 = ["F4"]
  /\ Z.of_nat (length (plan "F1" "F5").2)
     = Z.abs (getFloorIndex "F5" - getFloorIndex "F1").
Proof.
  split; [reflexivity|]. split; [reflexivity|]. split; [reflexivity|].
  refine (proj1 (proj2 (proj2 (plan_direction_and_passes "F1" "F5" _ _ _)))).
  - apply (bool_decide_unpack _). vm_compute. exact I.
  - apply (bool_decide_unpack _). vm_compute. exact I.
  - discriminate.
Defined.

(** The scheduler's trip is the planner's: from the floor [cf] of its
    closure it announces the direction of [plan cf target] and then walks
    the pass sequence of [plan cf target]. *)
Lemma trip_follows_plan (cf : string) (dopen : bool) (t : nat)
    (target : string) (w : World) :
  let r := announceAndWait cf dopen t target w in
  direction (hooks r.1) = Some (plan cf target).1
  /\ exists c, r.2 = Some c
     /\ forall w', resume c w'
                   = forLoop cf dopen t target (plan cf target).2
                       (setIsMoving true w').
Proof. simpl. split; [done|]. eexists. split; [done|]. done. Qed.

(** The specification's first scenario: from F1, idle, door open, the
    selection of F5 plays door-close, up, arrival at F5 and door-open, and
    ends with the cabin at F5, the queue empty and the scheduler returned. *)
Example scenario_F1_to_F5 :
  let ops := (selectFloor "F5" ++ replicate 8 (Tick 0))%list in
  let w := run ops init in
  cue <$> played w = [door_close; going_up; arrive "F5"; door_open]
  /\ currentFloor (hooks w) = "F5" /\ elevatorQueue w = []
  /\ isProcessing w = false /\ suspended w = [].
Proof. vm_compute. repeat split. Qed.

(** ** Reachable states and the scheduler invariant *)

Lemma run_snoc (ops : list Op) (o : Op) (w : World) :
  run (ops ++ [o]) w = step o (run ops w).
Proof. unfold run. by rewrite foldl_app. Qed.

Lemma run_invariant (P : World -> Prop) :
  P init -> (forall o w, P w -> P (step o w)) -> forall ops, P (run ops init).
Proof.
  intros H0 Hstep ops. induction ops as [|o ops IH] using rev_ind; [done|].
  rewrite run_snoc. by apply Hstep.
Qed.

Lemma Mono_snoc_trip (l : list Event) (t : nat) (c : Cue) :
  Mono l -> Bound l (S t) -> Mono (l ++ [mkEvent (Some t) c]).
Proof.
  intros HM HB i j e e' t1 t2 Hij Hi Hj Ho Ho'.
  apply lookup_snoc_Some in Hj as [[Hjl Hj]|[Hjl <-]].
  - apply lookup_snoc_Some in Hi as [[_ Hi]|[Hil _]]; [|lia].
    by apply (HM i j e e').
  - simpl in Ho'. injection Ho' as <-.
    apply lookup_snoc_Some in Hi as [[_ Hi]|[_ <-]].
    + apply list_elem_of_lookup_2 in Hi. specialize (HB e t1 Hi Ho). lia.
    + simpl in Ho. injection Ho as <-. lia.
Qed.

Lemma Mono_snoc_click (l : list Event) (c : Cue) :
  Mono l -> Mono (l ++ [mkEvent None c]).
Proof.
  intros HM i j e e' t1 t2 Hij Hi Hj Ho Ho'.
  apply lookup_snoc_Some in Hj as [[Hjl Hj]|[Hjl <-]]; [|discriminate].
  apply lookup_snoc_Some in Hi as [[_ Hi]|[Hil _]]; [|lia].
  by apply (HM i j e e').
Qed.

Lemma Bound_snoc (l : list Event) (n : nat) (e : Event) :
  Bound l n -> (forall t, origin e = Some t -> (t < n)%nat) -> Bound (l ++ [e]) n.
Proof.
  intros HB He e' t Hin Ho.
  apply elem_of_app in Hin as [Hin|Hin]; [by apply (HB e')|].
  apply list_elem_of_singleton in Hin as ->. by apply He.
Qed.

Lemma Bound_mono (l : list Event) (n m : nat) :
  Bound l n -> (n <= m)%nat -> Bound l m.
Proof. intros HB Hnm e t Hin Ho. specialize (HB e t Hin Ho). lia. Qed.

Lemma announceAndWait_post cf dopen t target w :
  isProcessing w = true -> S t = trips w -> audioLoaded (hooks w) = true ->
  isMoving (hooks w) = false -> targetFloor (hooks w) = Some target ->
  LogInv w ->
  StretchPost w (announceAndWait cf dopen t target w).
Proof.
  intros Hp Ht Ha Hm Htg [HM HB].
  unfold StretchPost, announceAndWait, LogInv, Running; simpl.
  split; [done|]. rewrite <- Ht in *. split.
  - split; [by apply Mono_snoc_trip | apply Bound_snoc; [done|]].
    simpl. intros ? [= <-]. lia.
  - done.
Qed.

Lemma loopTest_post cf dopen w :
  isProcessing w = true -> audioLoaded (hooks w) = true ->
  isMoving (hooks w) = false -> direction (hooks w) = None ->
  LogInv w ->
  StretchPost w (loopTest cf dopen w).
Proof.
  intros Hp Ha Hm Hd [HM HB]. unfold loopTest.
  destruct (elevatorQueue w) as [|target q] eqn:Hq.
  - unfold StretchPost, Idle, LogInv; simpl. done.
  - destruct dopen.
    + unfold StretchPost, Running, LogInv; simpl.
      split; [done|]. split; [|done]. split.
      * apply Mono_snoc_trip; [done|]. eapply Bound_mono; [done|lia].
      * apply Bound_snoc; [eapply Bound_mono; [done|lia]|].
        simpl. intros ? [= <-]. lia.
    + set (w1 := setTargetFloor (Some target) (countTrip (setQueue q w))).
      assert (HL1 : LogInv w1).
      { split; [done|]. eapply Bound_mono; [done|simpl; lia]. }
      by destruct (announceAndWait_post cf false (trips w) target w1)
        as (Hs & HL & HR).
Qed.

Lemma forLoop_post cf dopen t target floors w :
  isProcessing w = true -> S t = trips w -> audioLoaded (hooks w) = true ->
  isMoving (hooks w) = true -> is_Some (direction (hooks w)) ->
  targetFloor (hooks w) = Some target ->
  LogInv w ->
  StretchPost w (forLoop cf dopen t target floors w).
Proof.
  intros Hp Ht Ha Hm Hd Htg [HM HB]. unfold forLoop.
  destruct floors as [|floor rest].
  - unfold StretchPost, Running, LogInv; simpl.
    split; [done|]. split; [|done]. rewrite <- Ht in *. split.
    + by apply Mono_snoc_trip.
    + apply Bound_snoc; [done|]. simpl. intros ? [= <-]. lia.
  - unfold StretchPost, Running, LogInv; simpl. done.
Qed.

Lemma resume_post c w :
  Running w c -> LogInv w -> StretchPost w (resume c w).
Proof.
  intros (Hp & Ht & Ha & Hph) HL. unfold resume.
  destruct (pc c) as [target|target dir ci ti|target floor rest|target|] eqn:Hpc;
    simpl in Hph.
  - destruct Hph as (Hm & Hd & Htg). by apply announceAndWait_post.
  - destruct Hph as (Hm & Hd & Htg).
    destruct (forLoop_post (cl_currentFloor c) (cl_isDoorOpen c) (trip c) target
                (floorsToPass dir ci ti) (setIsMoving true w))
      as (Hs & HL' & HR); try done.
  - destruct Hph as (Hm & Hd & Htg).
    destruct (forLoop_post (cl_currentFloor c) (cl_isDoorOpen c) (trip c) target
                rest (setDisplayFloor floor (setCurrentFloor floor w)))
      as (Hs & HL' & HR); try done.
  - destruct Hph as (Hm & Hd & Htg). destruct HL as [HM HB].
    unfold StretchPost, Running, LogInv; simpl.
    split; [done|]. rewrite <- Ht in *. split; [|by rewrite Htg].
    split; [by apply Mono_snoc_trip|].
    apply Bound_snoc; [done|]. simpl. intros ? [= <-]. lia.
  - destruct Hph as (Hm & Hd & Htg). by apply loopTest_post.
Qed.

Lemma initAudio_eq w : initAudio w = setAudioLoaded true w.
Proof.
  unfold initAudio. destruct (audioLoaded (hooks w)) eqn:E; [|done].
  destruct w as [h q p s l n], h. simpl in *. by subst.
Qed.

Lemma processQueue_inv cf dopen w :
  suspended w = [] -> isProcessing w = false ->
  audioLoaded (hooks w) = true -> isMoving (hooks w) = false ->
  direction (hooks w) = None -> targetFloor (hooks w) = None ->
  LogInv w ->
  SchedInv (processQueue cf dopen w) /\ LogInv (processQueue cf dopen w).
Proof.
  intros Hs Hp Ha Hm Hd Ht HL. unfold processQueue. rewrite Hp. simpl.
  destruct (elevatorQueue w) as [|x q] eqn:Hq; simpl.
  - split; [|done]. unfold SchedInv. rewrite Hs. done.
  - destruct (loopTest_post cf dopen (setProcessing true w)) as (Hs' & HL' & HR);
      try done.
    destruct (loopTest cf dopen (setProcessing true w)) as [w' k].
    simpl in *. rewrite Hs' , Hs. split; [|done].
    unfold SchedInv. simpl. by destruct k.
Qed.

Lemma SchedInv_frame w w' :
  suspended w' = suspended w -> isProcessing w' = isProcessing w ->
  elevatorQueue w' = elevatorQueue w -> trips w' = trips w ->
  isMoving (hooks w') = isMoving (hooks w) ->
  direction (hooks w') = direction (hooks w) ->
  targetFloor (hooks w') = targetFloor (hooks w) ->
  (audioLoaded (hooks w) = true -> audioLoaded (hooks w') = true) ->
  SchedInv w -> SchedInv w'.
Proof.
  intros Hs Hp Hq Ht Hm Hd Htg Ha. unfold SchedInv, Idle, Running.
  rewrite Hs, Hp, Hq, Ht, Hm, Hd, Htg.
  destruct (suspended w) as [|c [|]]; [done| |done].
  intros (? & ? & ? & Hph). repeat split; auto.
  unfold phaseOK in *. destruct (pc c); by rewrite ?Hm, ?Hd, ?Htg.
Qed.

Lemma LogInv_click w c :
  LogInv w -> LogInv (playAudio None c w).
Proof.
  intros [HM HB]. split; simpl.
  - by apply Mono_snoc_click.
  - by apply Bound_snoc.
Qed.

Lemma tick_inv i w :
  SchedInv w /\ LogInv w -> SchedInv (tick i w) /\ LogInv (tick i w).
Proof.
  intros [HS HL]. unfold tick.
  destruct (suspended w !! i) as [c|] eqn:Hi; [|done].
  pose proof HS as HS'. unfold SchedInv, Idle, Running in HS'.
  destruct (suspended w) as [|c0 [|]] eqn:Hsus; [done| |done].
  destruct i as [|i]; [|done]. injection Hi as ->.
  destruct (resume_post c w) as (Hs' & HL' & HR); [done..|].
  destruct (resume c w) as [w' [c'|]]; simpl in *.
  - split; [|done]. unfold SchedInv. simpl. rewrite Hs', Hsus. done.
  - split; [|done]. unfold SchedInv. simpl. rewrite Hs', Hsus. done.
Qed.

Lemma step_inv o w :
  SchedInv w /\ LogInv w -> SchedInv (step o w) /\ LogInv (step o w).
Proof.
  intros [HS HL]. destruct o as [f|f|d| | | |i]; simpl.
  - (* handleFloorSelect *)
    unfold handleFloorSelect. rewrite !initAudio_eq.
    destruct (_ && _ && _).
    { split; [|done]. by apply (SchedInv_frame w). }
    destruct (bool_decide _); simpl.
    { split; [|done]. by apply (SchedInv_frame w). }
    pose proof HS as HS'. unfold SchedInv, Idle, Running in HS'.
    destruct (suspended w) as [|c [|]] eqn:Hsus; [| |done].
    + destruct HS' as (Hp & Hq & Hm & Hd & Ht). rewrite Hp. simpl.
      apply processQueue_inv; simpl; done.
    + destruct HS' as (Hp & Ht & Ha & Hph). rewrite Hp. simpl.
      split; [|done]. unfold SchedInv. simpl. rewrite Hsus. done.
  - (* handleOutsideFloorSelect *)
    unfold handleOutsideFloorSelect. rewrite initAudio_eq.
    split; [|done]. by apply (SchedInv_frame w).
  - (* handleCallElevator *)
    unfold handleCallElevator. rewrite !initAudio_eq.
    set (w1 := announceDirection None d (setCallDirection (Some d) (setAudioLoaded true w))).
    assert (HS1 : SchedInv w1) by by apply (SchedInv_frame w).
    assert (HL1 : LogInv w1).
    { unfold w1, announceDirection. by apply LogInv_click. }
    destruct (_ || _); [|done].
    pose proof HS as HS'. unfold SchedInv, Idle, Running in HS'.
    destruct (suspended w) as [|c [|]] eqn:Hsus; [| |done].
    + destruct HS' as (Hp & Hq & Hm & Hd & Ht). simpl. rewrite Hp. simpl.
      apply processQueue_inv; simpl; done.
    + destruct HS' as (Hp & Ht & Ha & Hph). simpl. rewrite Hp. simpl.
      split; [|done]. unfold SchedInv. simpl. rewrite Hsus. done.
  - (* toggleView *)
    unfold toggleView. rewrite !initAudio_eq.
    destruct (currentView _); (split; [|done]); by apply (SchedInv_frame w).
  - (* handleDoorOpen *)
    unfold handleDoorOpen. rewrite !initAudio_eq.
    destruct (negb _).
    + split; [by apply (SchedInv_frame w)|].
      unfold announceDoor. by apply LogInv_click.
    + split; [|done]. by apply (SchedInv_frame w).
  - (* handleDoorClose *)
    unfold handleDoorClose. rewrite !initAudio_eq.
    destruct (negb _).
    + split; [by apply (SchedInv_frame w)|].
      unfold announceDoor. by apply LogInv_click.
    + split; [|done]. by apply (SchedInv_frame w).
  - by apply tick_inv.
Qed.

Lemma init_inv : SchedInv init /\ LogInv init.
Proof.
  split; [done|]. split.
  - intros i j e e' t t' _ Hi. simpl in Hi. by rewrite lookup_nil in Hi.
  - intros e t Hin. simpl in Hin. by apply not_elem_of_nil in Hin.
Qed.

Lemma reachable_inv ops : SchedInv (run ops init) /\ LogInv (run ops init).
Proof. apply (run_invariant (fun w => SchedInv w /\ LogInv w)); [apply init_inv | apply step_inv]. Qed.

(** ** Queue and lit buttons *)

Lemma loopTest_dequeues cf dopen w : dequeues w (loopTest cf dopen w).
Proof.
  unfold dequeues, loopTest.
  destruct (elevatorQueue w) as [|t q] eqn:Hq; simpl; [by rewrite Hq|].
  destruct dopen; simpl; eauto.
Qed.

Lemma forLoop_view cf dopen t target floors w :
  let r := forLoop cf dopen t target floors w in
  selectedFloors (hooks r.1) = selectedFloors (hooks w)
  /\ elevatorQueue r.1 = elevatorQueue w
  /\ exists c, r.2 = Some c /\ inFlight (pc c) = Some target.
Proof. destruct floors; simpl; eauto. Qed.

Lemma resume_view c w :
  let r := resume c w in
  match pc c with
  | AwaitSettle => dequeues w r
  | AwaitArrival t =>
      elevatorQueue r.1 = elevatorQueue w
      /\ selectedFloors (hooks r.1) = selectedFloors (hooks w) ∖ {[t]}
      /\ exists c', r.2 = Some c' /\ inFlight (pc c') = None
  | _ =>
      elevatorQueue r.1 = elevatorQueue w
      /\ selectedFloors (hooks r.1) = selectedFloors (hooks w)
      /\ exists c', r.2 = Some c' /\ inFlight (pc c') = inFlight (pc c)
  end.
Proof.
  unfold resume.
  destruct (pc c) as [t|t d ci ti|t f rest|t|] eqn:Hpc; simpl.
  - eauto.
  - destruct (forLoop_view (cl_currentFloor c) (cl_isDoorOpen c) (trip c) t
                (floorsToPass d ci ti) (setIsMoving true w)) as (?&?&?).
    done.
  - destruct (forLoop_view (cl_currentFloor c) (cl_isDoorOpen c) (trip c) t
                rest (setDisplayFloor f (setCurrentFloor f w))) as (?&?&?).
    done.
  - eauto.
  - apply loopTest_dequeues.
Qed.

Lemma loopTest_suspended cf dopen w :
  suspended (loopTest cf dopen w).1 = suspended w.
Proof.
  unfold loopTest. destruct (elevatorQueue w); [done|]. by destruct dopen.
Qed.

Lemma resume_suspended c w : suspended (resume c w).1 = suspended w.
Proof.
  unfold resume. destruct (pc c) as [t|t d ci ti|t f rest|t|]; simpl; try done.
  - by destruct (floorsToPass d ci ti).
  - by destruct rest.
  - apply loopTest_suspended.
Qed.

Lemma processQueue_idle cf dopen w :
  isProcessing w = false -> suspended w = [] ->
  processQueue cf dopen w
  = match elevatorQueue w with
    | [] => w
    | _ :: _ =>
        let r := loopTest cf dopen (setProcessing true w) in
        setSuspended (option_list r.2) r.1
    end.
Proof.
  intros Hp Hs. unfold processQueue. rewrite Hp. simpl.
  destruct (elevatorQueue w) as [|t q] eqn:Hq; simpl; [done|].
  pose proof (loopTest_suspended cf dopen (setProcessing true w)) as Hs'.
  destruct (loopTest cf dopen (setProcessing true w)) as [w' k].
  simpl in *. by rewrite Hs', Hs.
Qed.

Lemma tick_cases i w :
  SchedInv w ->
  tick i w = w
  \/ exists c, suspended w = [c] /\ i = 0%nat
     /\ tick i w = setSuspended (option_list (resume c w).2) (resume c w).1.
Proof.
  intros HS. unfold tick. unfold SchedInv in HS.
  destruct (suspended w) as [|c [|]] eqn:Hsus; [by left| |done].
  destruct i as [|i]; [|by left]. right. exists c. simpl.
  split; [done|]. split; [done|].
  pose proof (resume_suspended c w) as Hs'.
  destruct (resume c w) as [w' [c'|]]; simpl in *; by rewrite Hs', Hsus.
Qed.

(** *** Lit buttons *)

Lemma processQueue_SelInv cf dopen w :
  isProcessing w = false -> suspended w = [] ->
  SelInv w -> SelInv (processQueue cf dopen w).
Proof.
  intros Hp Hs HI. rewrite processQueue_idle by done.
  destruct (elevatorQueue w) as [|t q] eqn:Hq; [done|].
  destruct (loopTest_dequeues cf dopen (setProcessing true w)) as [Hsel Hd].
  simpl in Hd. rewrite Hq in Hd. destruct Hd as (Hq' & c & Hk & Hfl).
  intros f Hf. simpl in *. rewrite Hsel in Hf. simpl in Hf.
  destruct (HI f Hf) as [Hin|(c0 & Hc0 & _)].
  - rewrite Hq in Hin. apply elem_of_cons in Hin as [->|Hin].
    + right. exists c. rewrite Hk. simpl. split; [apply list_elem_of_here|done].
    + left. by rewrite Hq'.
  - rewrite Hs in Hc0. by apply not_elem_of_nil in Hc0.
Qed.

Lemma tick_SelInv i w : SchedInv w -> SelInv w -> SelInv (tick i w).
Proof.
  intros HS HI. destruct (tick_cases i w HS) as [->|(c & Hsus & -> & ->)]; [done|].
  pose proof (resume_view c w) as Hv. simpl in Hv.
  intros f Hf. simpl in *.
  assert (Hc : forall g, (exists c0, c0 ∈ suspended w /\ inFlight (pc c0) = Some g) ->
                         inFlight (pc c) = Some g).
  { intros g (c0 & Hc0 & Hg). rewrite Hsus in Hc0.
    by apply list_elem_of_singleton in Hc0 as ->. }
  destruct (pc c) as [t|t d ci ti|t fl rest|t|] eqn:Hpc.
  1-3: destruct Hv as (Hq & Hsel & c' & Hk & Hfl); rewrite Hsel in Hf;
       rewrite Hq, Hk; simpl;
       (destruct (HI f Hf) as [Hin|Hin]; [by left|]);
       right; exists c'; split; [apply list_elem_of_here|];
       rewrite Hfl; by apply Hc.
  - destruct Hv as (Hq & Hsel & c' & Hk & Hfl). rewrite Hsel in Hf.
    apply elem_of_difference in Hf as [Hf Hne].
    rewrite Hq. destruct (HI f Hf) as [Hin|Hin]; [by left|].
    apply Hc in Hin. simpl in Hin. injection Hin as ->.
    exfalso. apply Hne. by apply elem_of_singleton.
  - destruct Hv as [Hsel Hd]. rewrite Hsel in Hf.
    destruct (HI f Hf) as [Hin|Hin]; [|by apply Hc in Hin].
    destruct (elevatorQueue w) as [|t q]; [by apply not_elem_of_nil in Hin|].
    destruct Hd as (Hq' & c' & Hk & Hfl). rewrite Hq', Hk. simpl.
    apply elem_of_cons in Hin as [->|Hin]; [|by left].
    right. exists c'. split; [apply list_elem_of_here|done].
Qed.

Lemma SelInv_frame w w' :
  selectedFloors (hooks w') = selectedFloors (hooks w) ->
  elevatorQueue w' = elevatorQueue w -> suspended w' = suspended w ->
  SelInv w -> SelInv w'.
Proof. intros Hsel Hq Hs HI f. rewrite Hsel, Hq, Hs. apply HI. Qed.

Lemma SelInv_select w w' f :
  selectedFloors (hooks w') = selectedFloors (hooks w) ∪ {[f]} ->
  elevatorQueue w' = (elevatorQueue w ++ [f])%list ->
  suspended w' = suspended w ->
  SelInv w -> SelInv w'.
Proof.
  intros Hsel Hq Hs HI g. rewrite Hsel, Hq, Hs. intros Hg.
  apply elem_of_union in Hg as [Hg|Hg].
  - destruct (HI g Hg) as [Hin|Hin]; [left|by right].
    apply elem_of_app. by left.
  - apply elem_of_singleton in Hg as ->. left.
    apply elem_of_app. right. apply list_elem_of_here.
Qed.

Lemma SelInv_call w w' f :
  selectedFloors (hooks w') = selectedFloors (hooks w) ->
  elevatorQueue w' = f :: elevatorQueue w ->
  suspended w' = suspended w ->
  SelInv w -> SelInv w'.
Proof.
  intros Hsel Hq Hs HI g. rewrite Hsel, Hq, Hs. intros Hg.
  destruct (HI g Hg) as [Hin|Hin]; [left|by right].
  apply elem_of_cons. by right.
Qed.

Lemma idle_not_suspended w : SchedInv w -> isProcessing w = false -> suspended w = [].
Proof.
  unfold SchedInv, Running. intros HS Hp.
  destruct (suspended w) as [|c [|]]; [done| |done].
  destruct HS as [HS _]. congruence.
Qed.

Lemma step_SelInv o w : SchedInv w -> SelInv w -> SelInv (step o w).
Proof.
  intros HS HI. destruct o as [f|f|d| | | |i]; simpl.
  - unfold handleFloorSelect. rewrite !initAudio_eq.
    destruct (_ && _ && _); [by apply (SelInv_frame w)|].
    destruct (bool_decide _); simpl; [by apply (SelInv_frame w)|].
    destruct (isProcessing w) eqn:Hp; simpl.
    + by apply (SelInv_select w _ f).
    + apply processQueue_SelInv; [done|simpl; by apply idle_not_suspended|].
      by apply (SelInv_select w _ f).
  - unfold handleOutsideFloorSelect. rewrite initAudio_eq.
    by apply (SelInv_frame w).
  - unfold handleCallElevator. rewrite !initAudio_eq.
    destruct (_ || _); [|by apply (SelInv_frame w)]. simpl.
    destruct (isProcessing w) eqn:Hp; simpl.
    + by apply (SelInv_call w _ (outsideFloor (hooks w))).
    + apply processQueue_SelInv; [done|simpl; by apply idle_not_suspended|].
      by apply (SelInv_call w _ (outsideFloor (hooks w))).
  - unfold toggleView. rewrite !initAudio_eq.
    destruct (currentView _); by apply (SelInv_frame w).
  - unfold handleDoorOpen. rewrite !initAudio_eq.
    destruct (negb _); by apply (SelInv_frame w).
  - unfold handleDoorClose. rewrite !initAudio_eq.
    destruct (negb _); by apply (SelInv_frame w).
  - by apply tick_SelInv.
Qed.

Lemma reachable_SelInv ops : SelInv (run ops init).
Proof.
  enough (SchedInv (run ops init) /\ LogInv (run ops init) /\ SelInv (run ops init))
    as (_ & _ & H) by done.
  apply (run_invariant (fun w => SchedInv w /\ LogInv w /\ SelInv w)).
  - destruct init_inv as [? ?]. split; [done|]. split; [done|].
    intros f Hf. simpl in Hf. by apply not_elem_of_empty in Hf.
  - intros o w (HS & HL & HI).
    destruct (step_inv o w) as [? ?]; [done|].
    split; [done|]. split; [done|]. by apply step_SelInv.
Qed.

(** With no trip in progress no floor button is lit. *)
Lemma idle_nothing_selected ops :
  isProcessing (run ops init) = false ->
  selectedFloors (hooks (run ops init)) = ∅.
Proof.
  intros Hp. destruct (reachable_inv ops) as [HS _].
  pose proof (reachable_SelInv ops) as HI.
  unfold SchedInv, Idle, Running in HS.
  destruct (suspended (run ops init)) as [|c [|]] eqn:Hsus; [| |done].
  - destruct HS as (_ & Hq & _).
    apply set_eq. intros f. split; [|by intros ?%not_elem_of_empty].
    intros Hf. destruct (HI f Hf) as [Hin|(c & Hc & _)].
    + rewrite Hq in Hin. by apply not_elem_of_nil in Hin.
    + rewrite Hsus in Hc. by apply not_elem_of_nil in Hc.
  - destruct HS as [HS _]. congruence.
Qed.

(** *** The queue under cabin selections *)

Lemma QueueInv_frame w w' :
  selectedFloors (hooks w') = selectedFloors (hooks w) ->
  elevatorQueue w' = elevatorQueue w -> suspended w' = suspended w ->
  QueueInv w -> QueueInv w'.
Proof. intros Hsel Hq Hs. unfold QueueInv. by rewrite Hsel, Hq, Hs. Qed.

Lemma QueueInv_select w w' f :
  selectedFloors (hooks w') = selectedFloors (hooks w) ∪ {[f]} ->
  elevatorQueue w' = (elevatorQueue w ++ [f])%list ->
  suspended w' = suspended w ->
  f ∉ selectedFloors (hooks w) ->
  QueueInv w -> QueueInv w'.
Proof.
  intros Hsel Hq Hs Hf (Hnd & Hsub & Hfl). unfold QueueInv.
  rewrite Hsel, Hq, Hs. split; [|split].
  - apply NoDup_app. split; [done|]. split; [|apply NoDup_singleton].
    intros g Hg Hg'. apply list_elem_of_singleton in Hg' as ->.
    by apply Hf, Hsub.
  - intros g Hg. apply elem_of_union.
    apply elem_of_app in Hg as [Hg|Hg]; [left; by apply Hsub|right].
    apply list_elem_of_singleton in Hg as ->. by apply elem_of_singleton.
  - intros c t Hc Ht. destruct (Hfl c t Hc Ht) as [Hin Hout].
    split; [apply elem_of_union; by left|].
    intros Hg. apply elem_of_app in Hg as [Hg|Hg]; [done|].
    apply list_elem_of_singleton in Hg as ->. done.
Qed.

Lemma dequeues_QueueInv w r :
  suspended w = [] -> dequeues w r -> QueueInv w ->
  QueueInv (setSuspended (option_list r.2) r.1).
Proof.
  intros Hs [Hsel Hd] (Hnd & Hsub & _). unfold QueueInv. simpl. rewrite Hsel.
  destruct (elevatorQueue w) as [|t q] eqn:Hq.
  - destruct Hd as [-> ->]. simpl. split; [apply NoDup_nil_2|].
    split; [by intros ? ?%not_elem_of_nil|by intros ? ? ?%not_elem_of_nil].
  - destruct Hd as (-> & c & -> & Hfl). simpl.
    apply NoDup_cons in Hnd as [Ht Hnd].
    split; [done|]. split.
    + intros g Hg. apply Hsub. apply elem_of_cons. by right.
    + intros c0 t0 Hc0 Ht0. apply list_elem_of_singleton in Hc0 as ->.
      rewrite Hfl in Ht0. injection Ht0 as <-.
      split; [|done]. apply Hsub, list_elem_of_here.
Qed.

Lemma processQueue_QueueInv cf dopen w :
  isProcessing w = false -> suspended w = [] ->
  QueueInv w -> QueueInv (processQueue cf dopen w).
Proof.
  intros Hp Hs HI. rewrite processQueue_idle by done.
  destruct (elevatorQueue w) as [|t q] eqn:Hq; [done|].
  apply (dequeues_QueueInv (setProcessing true w)); [done| |done].
  apply loopTest_dequeues.
Qed.

Lemma tick_QueueInv i w : SchedInv w -> QueueInv w -> QueueInv (tick i w).
Proof.
  intros HS HI. destruct (tick_cases i w HS) as [->|(c & Hsus & -> & ->)]; [done|].
  pose proof (resume_view c w) as Hv. simpl in Hv.
  destruct HI as (Hnd & Hsub & Hfl).
  assert (Hc : forall t, inFlight (pc c) = Some t ->
                 t ∈ selectedFloors (hooks w) /\ t ∉ elevatorQueue w).
  { intros t. apply Hfl. rewrite Hsus. apply list_elem_of_here. }
  destruct (pc c) as [t|t d ci ti|t fl rest|t|] eqn:Hpc.
  1-3: destruct Hv as (Hq & Hsel & c' & Hk & Hfl'); unfold QueueInv; simpl;
       rewrite Hq, Hsel, Hk; simpl; (split; [done|]); (split; [done|]);
       intros c0 t0 Hc0 Ht0; apply list_elem_of_singleton in Hc0 as ->;
       rewrite Hfl' in Ht0; by apply Hc.
  - destruct Hv as (Hq & Hsel & c' & Hk & Hfl'). unfold QueueInv; simpl.
    rewrite Hq, Hsel, Hk. simpl. destruct (Hc t eq_refl) as [_ Hout].
    split; [done|]. split.
    + intros g Hg. apply elem_of_difference. split; [by apply Hsub|].
      intros ->%elem_of_singleton. done.
    + intros c0 t0 Hc0 Ht0. apply list_elem_of_singleton in Hc0 as ->.
      congruence.
  - assert (Hnone : QueueInv (setSuspended [] w)).
    { split; [done|]. split; [done|]. by intros ? ? ?%not_elem_of_nil. }
    by apply (dequeues_QueueInv (setSuspended [] w)).
Qed.

Lemma step_QueueInv o w :
  isHallCall o = false -> SchedInv w -> QueueInv w -> QueueInv (step o w).
Proof.
  intros Ho HS HI. destruct o as [f|f|d| | | |i]; simpl; [| |done| | | |].
  - unfold handleFloorSelect. rewrite !initAudio_eq.
    destruct (_ && _ && _); [by apply (QueueInv_frame w)|].
    destruct (bool_decide_reflect (f ∈ selectedFloors (hooks w))) as [Hf|Hf];
      simpl; [by apply (QueueInv_frame w)|].
    destruct (isProcessing w) eqn:Hp; simpl.
    + by apply (QueueInv_select w _ f).
    + apply processQueue_QueueInv; [done|simpl; by apply idle_not_suspended|].
      by apply (QueueInv_select w _ f).
  - unfold handleOutsideFloorSelect. rewrite initAudio_eq.
    by apply (QueueInv_frame w).
  - unfold toggleView. rewrite !initAudio_eq.
    destruct (currentView _); by apply (QueueInv_frame w).
  - unfold handleDoorOpen. rewrite !initAudio_eq.
    destruct (negb _); by apply (QueueInv_frame w).
  - unfold handleDoorClose. rewrite !initAudio_eq.
    destruct (negb _); by apply (QueueInv_frame w).
  - by apply tick_QueueInv.
Qed.

Lemma selections_QueueInv ops :
  forallb (fun o => negb (isHallCall o)) ops = true ->
  QueueInv (run ops init).
Proof.
  intros Hops.
  enough (SchedInv (run ops init) /\ QueueInv (run ops init)) as [_ H] by done.
  induction ops as [|o ops IH] using rev_ind.
  - split; [by destruct init_inv|]. split; [apply NoDup_nil_2|].
    split; [by intros ? ?%not_elem_of_nil|by intros ? ? ?%not_elem_of_nil].
  - rewrite forallb_app in Hops. apply andb_prop in Hops as [Hops Ho].
    simpl in Ho. rewrite andb_true_r in Ho. apply negb_true_iff in Ho.
    destruct (IH Hops) as [HS HI]. rewrite run_snoc.
    split; [|by apply step_QueueInv].
    destruct (reachable_inv (ops ++ [o])) as [H _]. by rewrite run_snoc in H.
Qed.

(** ** Manual door requests *)

Lemma initAudio_loaded w : audioLoaded (hooks w) = true -> initAudio w = w.
Proof. intros H. unfold initAudio. by rewrite H. Qed.

Lemma moving_audioLoaded ops :
  isMoving (hooks (run ops init)) = true ->
  audioLoaded (hooks (run ops init)) = true.
Proof.
  intros Hm. destruct (reachable_inv ops) as [HS _].
  unfold SchedInv, Idle, Running in HS.
  destruct (suspended (run ops init)) as [|c [|]]; [|by destruct HS as (_&_&?&_)|done].
  destruct HS as (_ & _ & Hm' & _). congruence.
Qed.

(** C10: in any state, [requestDoorOpen] and [requestDoorClose] leave the
    current floor, the target, the direction, the moving flag, the request
    queue and the selected set as they were (and the scheduler's flag and
    suspended invocation too).  While the cabin moves they change nothing:
    the handler stops after [initAudio], which is the identity once the
    sounds are loaded, as they are in every state of a run in which the
    cabin moves; so there the state after the request is the state before
    it. *)
Theorem door_requests_frame (w : World) :
  sameExceptDoor w (run requestDoorOpen w)
  /\ sameExceptDoor w (run requestDoorClose w)
  /\ (isMoving (hooks w) = true ->
      run requestDoorOpen w = initAudio w
      /\ run requestDoorClose w = initAudio w
      /\ isDoorOpen (hooks (run requestDoorOpen w)) = isDoorOpen (hooks w)
      /\ isDoorOpen (hooks (run requestDoorClose w)) = isDoorOpen (hooks w)
      /\ played (run requestDoorOpen w) = played w
      /\ played (run requestDoorClose w) = played w)
  /\ (forall ops, w = run ops init -> isMoving (hooks w) = true ->
      run requestDoorOpen w = w /\ run requestDoorClose w = w).
Proof.
  unfold requestDoorOpen, requestDoorClose, run; simpl.
  unfold handleDoorOpen, handleDoorClose. rewrite !initAudio_eq.
  split; [|split; [|split]].
  - unfold sameExceptDoor. by destruct (negb _).
  - unfold sameExceptDoor. by destruct (negb _).
  - intros ->. simpl. done.
  - intros ops -> Hm. rewrite Hm. simpl. rewrite <- initAudio_eq.
    split; apply initAudio_loaded; by apply moving_audioLoaded.
Qed.

Lemma door_requests_frame_witness :
  let w := run [SelectFloor "F5"; Tick 0; Tick 0] init in
  isMoving (hooks w) = true
  /\ run requestDoorOpen w = w /\ run requestDoorClose w = w.
Proof.
  split; [reflexivity|].
  refine (proj2 (proj2 (proj2 (door_requests_frame _))) [SelectFloor "F5"; Tick 0; Tick 0] _ _);
    reflexivity.
Defined.

(** ** Call router *)

(** X18: the routing of a hall call, as [handleCallElevator] does it.  A
    call from floor f skips the enqueue when the cabin is at f and not
    moving (line 183 consults neither the door nor the scheduler): queue,
    flag, suspended invocation, target and trip cues stay as they were.
    When the cabin is elsewhere or moving, f is put at the head of the
    queue; if an invocation of the scheduler is alive nothing else happens,
    otherwise one is started on the spot, with the floor and door state of
    this render, and takes f off the queue as its target.  The direction of
    the call changes nothing but the recorded call direction and the cue the
    handler plays. *)
Theorem callFromOutside_routing (f : string) (d : Dir) (w : World) :
  let h := hooks w in
  let w' := run (callFromOutside f d) w in
  (currentFloor h = f -> isMoving h = false ->
     elevatorQueue w' = elevatorQueue w /\ isProcessing w' = isProcessing w
     /\ suspended w' = suspended w /\ targetFloor (hooks w') = targetFloor h
     /\ tripCues w' = tripCues w)
  /\ (currentFloor h ≠ f \/ isMoving h = true ->
      (isProcessing w = true ->
         elevatorQueue w' = f :: elevatorQueue w /\ isProcessing w' = true
         /\ suspended w' = suspended w)
      /\ (isProcessing w = false ->
         elevatorQueue w' = elevatorQueue w /\ isProcessing w' = true
         /\ targetFloor (hooks w') = Some f
         /\ exists c, suspended w' = (suspended w ++ [c])%list
                      /\ cl_currentFloor c = currentFloor h
                      /\ cl_isDoorOpen c = isDoorOpen h))
  /\ (forall d', sameRouting w' (run (callFromOutside f d') w)).
Proof.
  intros h w'. subst h w'. unfold callFromOutside, run; simpl.
  unfold handleCallElevator, handleOutsideFloorSelect. rewrite !initAudio_eq.
  simpl. split; [|split].
  - intros Hf Hm. rewrite Hf, Hm, bool_decide_true by done. simpl.
    unfold tripCues. simpl. rewrite omap_app. simpl. by rewrite app_nil_r.
  - intros Hcase.
    assert (negb (bool_decide (currentFloor (hooks w) = f)) || isMoving (hooks w) = true) as ->.
    { destruct Hcase as [Hne| ->]; [|by rewrite orb_true_r].
      by rewrite bool_decide_false. }
    split; intros Hp; rewrite Hp; simpl; [done|].
    unfold processQueue. simpl. rewrite Hp. simpl.
    destruct (isDoorOpen (hooks w)) eqn:Hd; simpl; eauto 10.
  - intros d'. unfold sameRouting, tripCues.
    destruct (_ || _); simpl.
    + destruct (isProcessing w) eqn:Hp; simpl.
      * rewrite !omap_app. simpl. done.
      * unfold processQueue. simpl. rewrite Hp. simpl.
        destruct (isDoorOpen (hooks w)) eqn:Hd; simpl;
          rewrite !omap_app; simpl; done.
    + rewrite !omap_app. simpl. done.
Qed.

Lemma callFromOutside_routing_witness :
  let w := run [DoorClose; ToggleView] init in
  (elevatorQueue (run (callFromOutside "F1" up) w) = elevatorQueue w
   /\ isProcessing (run (callFromOutside "F1" up) w) = isProcessing w)
  /\ (isProcessing (run (callFromOutside "F3" up) w) = true
      /\ targetFloor (hooks (run (callFromOutside "F3" up) w)) = Some "F3").
Proof.
  intros w. split.
  - destruct (callFromOutside_routing "F1" up w) as [H _].
    destruct H as (Hq & Hp & _); [reflexivity | reflexivity |].
    exact (conj Hq Hp).
  - destruct (callFromOutside_routing "F3" up w) as (_ & H & _).
    destruct H as [_ H]; [left; discriminate|].
    destruct H as (_ & Hp & Ht & _); [reflexivity|].
    exact (conj Hp Ht).
Defined.

(** C5, the code departs from the claim.  The claim leaves a hall call
    without effect only when the cabin is at the caller's floor, idle and
    with the door open; the guard of [handleCallElevator] (line 183) tests
    [isMoving] and neither the door nor the scheduler, although the guard of
    its sibling [handleFloorSelect] (line 90) does test the door.
    - With the cabin at F1, at rest, no trip in progress and the door
      closed, a hall call from F1 enqueues nothing and starts no trip: the
      door stays closed and no arrival is ever announced.
    - With a trip to F5 started and the cabin still at F1 behind its closing
      door, a hall call from F1 is dropped as well: the only arrival ever
      announced is F5, where the cabin ends.
    - The cabin selection of F1 in the first situation is served: a trip is
      started and the door ends open. *)
Lemma call_ignored_with_door_closed :
  let w := run [DoorClose; ToggleView] init in
  let w' := run (callFromOutside "F1" up) w in
  let v := run [SelectFloor "F5"; ToggleView] init in
  let v' := run (callFromOutside "F1" up) v in
  let s := run (selectFloor "F1") (run [DoorClose] init) in
  (clickable ([DoorClose; ToggleView] ++ callFromOutside "F1" up)%list init = true
   /\ currentFloor (hooks w) = "F1" /\ isMoving (hooks w) = false
   /\ isProcessing w = false /\ isDoorOpen (hooks w) = false
   /\ elevatorQueue w' = elevatorQueue w
   /\ isProcessing w' = false /\ suspended w' = []
   /\ targetFloor (hooks w') = None
   /\ isDoorOpen (hooks (drain w')) = false
   /\ arrivals (played (drain w')) = [])
  /\ (clickable ([SelectFloor "F5"; ToggleView] ++ callFromOutside "F1" up)%list
                init = true
      /\ currentFloor (hooks v) = "F1" /\ isMoving (hooks v) = false
      /\ isProcessing v = true /\ isDoorOpen (hooks v) = false
      /\ elevatorQueue v' = [] /\ suspended v' = suspended v
      /\ targetFloor (hooks v') = Some "F5"
      /\ arrivals (played (drain v')) = ["F5"]
      /\ currentFloor (hooks (drain v')) = "F5")
  /\ (clickable ([DoorClose] ++ selectFloor "F1")%list init = true
      /\ isProcessing s = true /\ targetFloor (hooks s) = Some "F1"
      /\ isDoorOpen (hooks (drain s)) = true
      /\ arrivals (played (drain s)) = ["F1"]).
Proof. vm_compute. repeat split. Qed.

(** ** Single flight *)

Lemma Mono_between (l l1 l2 l3 : list Event) (a b e : Event) (t t' : nat) :
  Mono l -> l = (l1 ++ a :: l2 ++ b :: l3)%list ->
  origin a = Some t -> origin b = Some t -> e ∈ l2 -> origin e = Some t' ->
  t' = t.
Proof.
  intros HM -> Ha Hb He Ho.
  apply list_elem_of_lookup in He as [k Hk].
  assert (Hia : (l1 ++ a :: l2 ++ b :: l3)%list !! length l1 = Some a)
    by by apply list_lookup_middle.
  assert (Hie : (l1 ++ a :: l2 ++ b :: l3)%list !! (length l1 + S k)%nat = Some e).
  { rewrite lookup_app_r by lia.
    replace (length l1 + S k - length l1)%nat with (S k) by lia. simpl.
    by rewrite lookup_app_l by by eapply lookup_lt_Some. }
  assert (Hib : (l1 ++ a :: l2 ++ b :: l3)%list !! (length l1 + S (length l2))%nat = Some b).
  { rewrite lookup_app_r by lia.
    replace (length l1 + S (length l2) - length l1)%nat with (S (length l2)) by lia.
    simpl. by apply list_lookup_middle. }
  apply lookup_lt_Some in Hk.
  assert (t <= t')%nat by (eapply (HM _ _ a e); [|done..]; lia).
  assert (t' <= t)%nat by (eapply (HM _ _ e b); [|done..]; lia).
  lia.
Qed.

(** C4: in every reachable state at most one invocation of the scheduler
    is alive, and one is alive exactly when the in-progress flag is up;
    with the flag up a further call of [processQueue] returns at its guard
    and changes nothing; and in the cue log, between the door-close cue of
    a trip and the door-open cue of the same trip, every cue played by a
    trip belongs to that trip. *)
Theorem single_flight (ops : list Op) :
  let w := run ops init in
  (length (suspended w) <= 1)%nat
  /\ (isProcessing w = true <-> length (suspended w) = 1%nat)
  /\ (isProcessing w = true ->
      forall cf dopen, processQueue cf dopen w = w)
  /\ (forall l1 l2 l3 t,
      played w = (l1 ++ mkEvent (Some t) door_close
                     :: l2 ++ mkEvent (Some t) door_open :: l3)%list ->
      forall e t', e ∈ l2 -> origin e = Some t' -> t' = t).
Proof.
  intros w. destruct (reachable_inv ops) as [HS [HM HB]]. fold w in HS, HM, HB.
  unfold SchedInv, Idle, Running in HS.
  split; [|split; [|split]].
  - destruct (suspended w) as [|c [|]]; simpl; [lia|lia|done].
  - destruct (suspended w) as [|c [|]]; simpl; [| |done].
    + destruct HS as [-> _]. split; discriminate.
    + by destruct HS as [-> _].
  - intros Hp cf dopen. unfold processQueue. by rewrite Hp.
  - intros l1 l2 l3 t Hpl e t' He Ho.
    by eapply (Mono_between (played w) l1 l2 l3 _ _ e).
Qed.

Lemma single_flight_witness :
  let ops := [SelectFloor "B1"; SelectFloor "F2"; Tick 0; Tick 0; Tick 0;
              Tick 0; Tick 0; Tick 0; Tick 0; Tick 0; Tick 0] in
  let w := run ops init in
  played w
  = ([mkEvent (Some 0) door_close; mkEvent (Some 0) going_down;
      mkEvent (Some 0) (arrive "B1"); mkEvent (Some 0) door_open]
     ++ mkEvent (Some 1) door_close
        :: [mkEvent (Some 1) going_up; mkEvent (Some 1) (arrive "F2")]
        ++ mkEvent (Some 1) door_open :: [])%list
  /\ mkEvent (Some 1) going_up
     ∈ [mkEvent (Some 1) going_up; mkEvent (Some 1) (arrive "F2")]
  /\ 1%nat = 1%nat
  /\ isProcessing w = true
  /\ processQueue "F1" true w = w.
Proof.
  intros ops w.
  destruct (single_flight ops) as (_ & _ & Hguard & Hlog).
  assert (Hpl : played w
    = ([mkEvent (Some 0) door_close; mkEvent (Some 0) going_down;
        mkEvent (Some 0) (arrive "B1"); mkEvent (Some 0) door_open]
       ++ mkEvent (Some 1) door_close
          :: [mkEvent (Some 1) going_up; mkEvent (Some 1) (arrive "F2")]
          ++ mkEvent (Some 1) door_open :: [])%list) by (vm_compute; reflexivity).
  split; [exact Hpl|].
  split; [apply list_elem_of_here|].
  split.
  - apply (Hlog _ _ _ _ Hpl (mkEvent (Some 1) going_up) 1%nat).
    + apply list_elem_of_here.
    + reflexivity.
  - split; [vm_compute; reflexivity|].
    apply Hguard. vm_compute; reflexivity.
Defined.

(** ** Direction and movement *)

(** C8 as stated fails: after [selectFloor F5] from the initial state and
    the end of the door-closing delay, the direction is [Some up] while the
    cabin is not moving yet (the pre-move delay of line 136 runs). *)
Lemma direction_set_before_moving :
  let ops := [SelectFloor "F5"; Tick 0] in
  let w := run ops init in
  clickable ops init = true
  /\ isMoving (hooks w) = false /\ direction (hooks w) = Some up
  /\ ¬ (forall ops', isMoving (hooks (run ops' init)) = false ->
                     direction (hooks (run ops' init)) = None).
Proof.
  split; [vm_compute; reflexivity|].
  split; [vm_compute; reflexivity|].
  split; [vm_compute; reflexivity|].
  intros H. specialize (H [SelectFloor "F5"; Tick 0]).
  vm_compute in H. specialize (H eq_refl). discriminate H.
Qed.

(** C8, as amended: in every reachable state, a moving cabin has a
    direction; a direction is set only while one invocation of the
    scheduler is between its direction announcement and the arrival at its
    target (this includes the pre-move delay, during which the cabin is not
    moving yet), and then the scheduler flag is up and a target is set;
    with no trip in progress the direction is [None]. *)
Theorem direction_only_during_trip (ops : list Op) :
  let w := run ops init in
  (isMoving (hooks w) = true -> is_Some (direction (hooks w)))
  /\ (is_Some (direction (hooks w)) ->
      isProcessing w = true /\ is_Some (targetFloor (hooks w))
      /\ exists c, suspended w = [c] /\ announced (pc c) = true)
  /\ (isProcessing w = false ->
      direction (hooks w) = None /\ isMoving (hooks w) = false).
Proof.
  intros w. destruct (reachable_inv ops) as [HS _]. fold w in HS.
  clearbody w. unfold SchedInv, Idle, Running in HS.
  destruct (suspended w) as [|c [|]] eqn:Hsus; [| |done].
  - destruct HS as (Hp & _ & Hm & Hd & _). rewrite Hm, Hd, Hp.
    split; [done|]. split; [|done]. by intros [? ?].
  - destruct HS as (Hp & _ & _ & Hph). rewrite Hp.
    unfold phaseOK in Hph.
    assert (Hc : announced (pc c) = true ->
                 exists c', [c] = [c'] /\ announced (pc c') = true)
      by (intros E; exists c; by split).
    destruct (pc c) eqn:Hpc; destruct Hph as (Hm & Hd & Ht);
      rewrite ?Hm, ?Hd, ?Ht; (split; [done|]); (split; [|done]).
    + intros [? ?]; discriminate.
    + intros _. split; [done|]. split; [by eexists|]. by apply Hc.
    + intros _. split; [done|]. split; [by eexists|]. by apply Hc.
    + intros [? ?]; discriminate.
    + intros [? ?]; discriminate.
Qed.

Lemma direction_only_during_trip_witness :
  let w := run [SelectFloor "F5"; Tick 0; Tick 0] init in
  isMoving (hooks w) = true /\ is_Some (direction (hooks w))
  /\ isProcessing w = true.
Proof.
  intros w.
  destruct (direction_only_during_trip [SelectFloor "F5"; Tick 0; Tick 0])
    as (H1 & H2 & _).
  assert (Hm : isMoving (hooks w) = true) by (vm_compute; reflexivity).
  split; [exact Hm|]. split; [exact (H1 Hm)|].
  exact (proj1 (H2 (H1 Hm))).
Defined.

(** ** Where the code departs from the specification *)

(** C1 fails on the code: [handleCallElevator] puts the caller's floor at
    the head of the queue without looking at the queue or at the selected
    set.  Three hall calls from F3 with the cabin at F1: the first starts
    the scheduler, which takes F3 as its target; the second and the third
    each add F3 again.  And a cabin selection of F5 after a hall call from
    F5 adds F5 a second time, because hall calls do not light the button
    that [handleFloorSelect] checks. *)
Theorem hall_call_enqueues_duplicates :
  let calls := (ToggleView :: callFromOutside "F3" up ++ callFromOutside "F3" up
                 ++ callFromOutside "F3" up)%list in
  let mixed := (ToggleView :: callFromOutside "F3" up ++ callFromOutside "F5" up
                 ++ ToggleView :: selectFloor "F5")%list in
  clickable calls init = true
  /\ elevatorQueue (run calls init) = ["F3"; "F3"]
  /\ clickable mixed init = true
  /\ elevatorQueue (run mixed init) = ["F5"; "F5"].
Proof. vm_compute. repeat split. Qed.

(** C3 fails on the code, in two ways.  The door handlers look at
    [isMoving] only, which is still false during the two delays before the
    cabin starts: a door-open request made after the scheduler closed the
    door is carried out, and the cabin then starts moving with the door
    open.  And the scheduler tests the [isDoorOpen] of its closure: an
    invocation started with the door closed never closes the door, also
    not for its second trip, before which it opened the door itself. *)
Theorem door_open_while_moving :
  let manual := [SelectFloor "F5"; DoorOpen; Tick 0; Tick 0] in
  let stale := [DoorClose; SelectFloor "F5"; SelectFloor "F3"; Tick 0; Tick 0;
                Tick 0; Tick 0; Tick 0; Tick 0; Tick 0; Tick 0] in
  (clickable manual init = true
   /\ isDoorOpen (hooks (run manual init)) = true
   /\ isMoving (hooks (run manual init)) = true)
  /\ (clickable stale init = true
      /\ isDoorOpen (hooks (run stale init)) = true
      /\ isMoving (hooks (run stale init)) = true).
Proof. vm_compute. repeat split. Qed.

(** C2 fails on the code from the second trip of an invocation on: the
    scheduler reads the [currentFloor] of its closure, which is the floor
    at which the invocation started.  From F1 with requests F5 and F1: the
    second trip plans from F1 to F1, passes no floor, and announces the
    arrival at F1 with the cabin at F5.  With requests F5 and F3: the
    second trip announces up and passes F2 and F3, where [plan] from the
    cabin's floor F5 gives down and F4, F3. *)
Theorem second_trip_plans_from_stale_floor :
  let first := [SelectFloor "F5"; SelectFloor "F1"; Tick 0; Tick 0; Tick 0;
                Tick 0; Tick 0; Tick 0; Tick 0] in
  let back := (first ++ [Tick 0; Tick 0; Tick 0])%list in
  let other := [SelectFloor "F5"; SelectFloor "F3"; Tick 0; Tick 0; Tick 0;
                Tick 0; Tick 0; Tick 0; Tick 0; Tick 0; Tick 0; Tick 0] in
  (clickable back init = true
   /\ currentFloor (hooks (run first init)) = "F5"
   /\ elevatorQueue (run first init) = ["F1"]
   /\ last (played (run back init)) = Some (mkEvent (Some 1%nat) (arrive "F1"))
   /\ currentFloor (hooks (run back init)) = "F5"
   /\ plan "F5" "F1" = (down, ["F4"; "F3"; "F2"; "F1"]))
  /\ (clickable other init = true
      /\ last (played (run other init)) = Some (mkEvent (Some 1%nat) going_up)
      /\ pc <$> suspended (run other init) = [AwaitFloor "F3" "F2" ["F3"]]
      /\ plan "F5" "F3" = (down, ["F4"; "F3"])).
Proof. vm_compute. repeat split. Qed.

(** ** Requests for a floor in service *)

(** C9 as stated fails: after [selectFloor F5] from the initial state F5 has
    been dequeued as the target of the running trip and its button is still
    lit; a second [selectFloor F5] changes nothing, no queue entry is
    created. *)
Lemma reselect_in_service_dropped :
  let w := run (selectFloor "F5") init in
  clickable (selectFloor "F5" ++ selectFloor "F5")%list init = true
  /\ targetFloor (hooks w) = Some "F5"
  /\ elevatorQueue w = []
  /\ "F5" ∈ selectedFloors (hooks w)
  /\ run (selectFloor "F5") w = w.
Proof.
  split; [vm_compute; reflexivity|]. split; [vm_compute; reflexivity|].
  split; [vm_compute; reflexivity|].
  split; [|vm_compute; reflexivity].
  apply (bool_decide_unpack _). vm_compute. exact I.
Qed.

Lemma tick_never_enqueues i w :
  elevatorQueue (tick i w) = elevatorQueue w
  \/ exists t, elevatorQueue w = t :: elevatorQueue (tick i w).
Proof.
  unfold tick. destruct (suspended w !! i) as [c|]; [|by left].
  pose proof (resume_view c w) as Hv. simpl in Hv.
  assert (Hq : elevatorQueue (resume c w).1 = elevatorQueue w
               \/ exists t, elevatorQueue w = t :: elevatorQueue (resume c w).1).
  { destruct (pc c); try (left; by destruct Hv as [-> _]).
    destruct Hv as [_ Hd].
    destruct (elevatorQueue w) as [|t q]; [left; by destruct Hd|].
    right. exists t. by destruct Hd as [-> _]. }
  by destruct (resume c w) as [w' [c'|]].
Qed.

(** C9, as amended: a [selectFloor f] for a floor whose button is lit is
    dropped (nothing but the audio preload happens).  In a run of cabin
    selections, the target of the trip in progress keeps its button lit
    from the moment it is dequeued until the door-open step of its trip, so
    selecting it again in that interval leaves the state as it is.  A
    selection of a floor whose button is not lit, made while a scheduler
    invocation is alive and not filtered by the same-floor test, appends a
    fresh queue entry.  A timer expiry never inserts into the queue: it
    leaves the queue as it is or removes its head. *)
Theorem reselect_during_service (w : World) (f : string) :
  (f ∈ selectedFloors (hooks w) -> run (selectFloor f) w = initAudio w)
  /\ ((f ∉ selectedFloors (hooks w)) -> isProcessing w = true ->
      ¬ (f = currentFloor (hooks w) /\ isMoving (hooks w) = false
         /\ isDoorOpen (hooks w) = true) ->
      elevatorQueue (run (selectFloor f) w) = (elevatorQueue w ++ [f])%list
      /\ selectedFloors (hooks (run (selectFloor f) w))
         = (selectedFloors (hooks w) ∪ {[f]})
      /\ suspended (run (selectFloor f) w) = suspended w)
  /\ (forall i, elevatorQueue (tick i w) = elevatorQueue w
                \/ exists t, elevatorQueue w = t :: elevatorQueue (tick i w))
  /\ (forall ops c, w = run ops init ->
        forallb (fun o => negb (isHallCall o)) ops = true ->
        suspended w = [c] -> inFlight (pc c) = Some f ->
        f ∈ selectedFloors (hooks w) /\ (f ∉ elevatorQueue w)
        /\ run (selectFloor f) w = w).
Proof.
  assert (Hsel : f ∈ selectedFloors (hooks w) -> run (selectFloor f) w = initAudio w).
  { intros Hf. unfold selectFloor, run; simpl. unfold handleFloorSelect.
    rewrite (bool_decide_true _ Hf). simpl. by destruct (_ && _ && _). }
  split; [done|]. split; [|split].
  - intros Hf Hp Hnot. unfold selectFloor, run; simpl. unfold handleFloorSelect.
    rewrite !initAudio_eq, (bool_decide_false _ Hf). simpl. rewrite Hp. simpl.
    destruct (bool_decide_reflect (f = currentFloor (hooks w))) as [E|E]; simpl;
      [|done].
    destruct (isMoving (hooks w)) eqn:Hm; simpl; [done|].
    destruct (isDoorOpen (hooks w)) eqn:Hd; simpl; [|done].
    exfalso. by apply Hnot.
  - intros i. apply tick_never_enqueues.
  - intros ops c -> Hops Hsus Hfl.
    destruct (selections_QueueInv ops Hops) as (_ & _ & HI).
    destruct (HI c f) as [Hin Hout]; [rewrite Hsus; apply list_elem_of_here|done|].
    split; [done|]. split; [done|]. rewrite Hsel by done.
    apply initAudio_loaded.
    destruct (reachable_inv ops) as [HS _]. unfold SchedInv, Running in HS.
    rewrite Hsus in HS. by destruct HS as (_ & _ & ? & _).
Qed.

Lemma reselect_during_service_witness :
  let w := run [SelectFloor "F5"; Tick 0] init in
  ("F5" ∈ selectedFloors (hooks w) /\ ("F5" ∉ elevatorQueue w)
   /\ run (selectFloor "F5") w = w)
  /\ elevatorQueue (run (selectFloor "F3") w) = (elevatorQueue w ++ ["F3"])%list.
Proof.
  intros w. split.
  - destruct (reselect_during_service w "F5") as (_ & _ & _ & H).
    apply (H [SelectFloor "F5"; Tick 0]
             (mkCoroutine "F1" true (AwaitDeparture "F5" up 2 6) 0));
      vm_compute; reflexivity.
  - destruct (reselect_during_service w "F3") as (_ & H & _).
    destruct H as [Hq _]; [| |  |exact Hq].
    + intros Hin. apply (bool_decide_pack _) in Hin. vm_compute in Hin. exact Hin.
    + vm_compute; reflexivity.
    + intros [E _]. vm_compute in E. discriminate E.
Defined.

(** ** Requests for the cabin's own floor *)

Lemma planDir_same (i : Z) : planDir i i = down.
Proof. unfold planDir. by rewrite Z.gtb_ltb, Z.ltb_irrefl. Qed.

Lemma floorsToPass_same (i : Z) : floorsToPass down i i = [].
Proof. unfold floorsToPass. by rewrite slice_empty. Qed.





(** * Further properties of the code *)

(** ** Floor registry and planner *)

Lemma indexOf_absent (l : list string) (x : string) :
  indexOf l x = (-1)%Z <-> x ∉ l.
Proof.
  induction l as [|y l IH]; simpl.
  - split; [intros _; apply not_elem_of_nil | done].
  - destruct (decide (y = x)) as [->|Hne].
    + split; [discriminate|]. intros H. exfalso. apply H, list_elem_of_here.
    + rewrite not_elem_of_cons.
      destruct (Z.ltb_spec (indexOf l x) 0) as [Hlt|Hge].
      * split; [|done]. intros _. split; [done|]. apply IH.
        destruct (decide (x ∈ l)) as [Hin|Hout]; [|by apply IH].
        destruct (indexOf_elem l x Hin). lia.
      * split; [lia|]. intros [_ Hout]. apply IH in Hout. lia.
Qed.

Lemma indexOf_first (l : list string) (x : string) (i : nat) :
  l !! i = Some x -> (forall j y, (j < i)%nat -> l !! j = Some y -> y ≠ x) ->
  indexOf l x = Z.of_nat i.
Proof.
  revert i. induction l as [|y l IH]; intros i Hi Hfirst; [done|].
  simpl. destruct i as [|i]; simpl in Hi.
  - injection Hi as ->. by rewrite decide_True.
  - rewrite decide_False by (apply (Hfirst 0%nat); [lia|done]).
    rewrite (IH i Hi).
    + destruct (Z.ltb_spec (Z.of_nat i) 0); lia.
    + intros j z Hj Hz. apply (Hfirst (S j)); [lia|done].
Qed.

Lemma FLOORS_NoDup : NoDup FLOORS.
Proof. apply (bool_decide_unpack _). vm_compute. exact I. Qed.

(** X1: [getFloorIndex] and the registry [FLOORS] are inverse to each other:
    the floor stored at position [i] has index [i], the index of a registered
    floor lies in 0..11 and leads back to that floor, the index is -1 exactly
    for a name that is not registered, and no other value is ever returned. *)
Theorem getFloorIndex_roundtrip (f : string) (i : nat) :
  (FLOORS !! i = Some f -> getFloorIndex f = Z.of_nat i)
  /\ (f ∈ FLOORS ->
      (0 <= getFloorIndex f < 12)%Z
      /\ FLOORS !! Z.to_nat (getFloorIndex f) = Some f)
  /\ (getFloorIndex f = (-1)%Z <-> f ∉ FLOORS)
  /\ (-1 <= getFloorIndex f < 12)%Z.
Proof.
  split; [|split; [|split]].
  - intros Hi. apply indexOf_first; [done|].
    intros j y Hj Hy ->.
    pose proof (NoDup_lookup FLOORS j i f FLOORS_NoDup Hy Hi). lia.
  - apply getFloorIndex_elem.
  - apply indexOf_absent.
  - destruct (decide (f ∈ FLOORS)) as [Hin|Hout].
    + destruct (getFloorIndex_elem f Hin). lia.
    + apply indexOf_absent in Hout. unfold getFloorIndex. lia.
Qed.

Lemma getFloorIndex_roundtrip_witness :
  getFloorIndex "F3" = 4%Z /\ FLOORS !! 4%nat = Some "F3".
Proof.
  assert (H : FLOORS !! 4%nat = Some "F3") by reflexivity.
  split; [|exact H].
  exact (proj1 (getFloorIndex_roundtrip "F3" 4) H).
Defined.

Lemma slice_sublist {A} (l : list A) (a b : Z) : slice l a b `sublist_of` l.
Proof.
  unfold slice. etrans; [apply sublist_take | apply sublist_drop].
Qed.

(** [slice] with an end bound at or before its start is empty, whatever
    the signs of the bounds. *)
Lemma slice_backwards {A} (l : list A) (a b : Z) :
  (0 <= a)%Z -> (b <= a)%Z -> (0 <= b)%Z -> slice l a b = [].
Proof.
  intros Ha Hb Hb0. unfold slice.
  destruct (Z.ltb_spec a 0); [lia|]. destruct (Z.ltb_spec b 0); [lia|].
  replace (Z.to_nat _) with 0%nat by lia. done.
Qed.

Lemma floorsToPass_sublist (d : Dir) (ci ti : Z) (f : string) :
  f ∈ floorsToPass d ci ti -> f ∈ FLOORS.
Proof.
  destruct d; simpl; [|rewrite elem_of_reverse]; intros Hf;
    (eapply elem_of_sublist; [exact Hf | apply slice_sublist]).
Qed.

Lemma floorsToPass_NoDup (d : Dir) (ci ti : Z) : NoDup (floorsToPass d ci ti).
Proof.
  destruct d; simpl; [|rewrite reverse_Permutation];
    (eapply sublist_NoDup; [apply FLOORS_NoDup | apply slice_sublist]).
Qed.

Lemma floorsToPass_length (d : Dir) (ci ti : Z) :
  (length (floorsToPass d ci ti) <= 12)%nat.
Proof.
  destruct d; simpl; [|rewrite length_reverse];
    apply (sublist_length _ FLOORS), slice_sublist.
Qed.

(** X2: the planner of [processQueue] at its edges.  The floors it passes are
    registered floors, without repetition, at most twelve.  An unregistered
    target, or a target equal to the start, gives direction [down] and no
    floor to pass.  An unregistered start with a registered target gives
    direction [up] and the registry from its bottom up to the target. *)
Theorem plan_edge_cases (from to : string) :
  (forall f, f ∈ (plan from to).2 -> f ∈ FLOORS)
  /\ NoDup (plan from to).2
  /\ (length (plan from to).2 <= 12)%nat
  /\ (to ∉ FLOORS -> plan from to = (down, []))
  /\ (from = to -> plan from to = (down, []))
  /\ (from ∉ FLOORS -> to ∈ FLOORS ->
      plan from to = (up, take (Z.to_nat (getFloorIndex to + 1)) FLOORS)).
Proof.
  unfold plan; simpl. split; [|split; [|split; [|split; [|split]]]].
  - intros f. apply floorsToPass_sublist.
  - apply floorsToPass_NoDup.
  - apply floorsToPass_length.
  - intros Hto. apply indexOf_absent in Hto.
    change (indexOf FLOORS to) with (getFloorIndex to) in Hto. rewrite Hto.
    assert (Hlow : (-1 <= getFloorIndex from < 12)%Z).
    { unfold getFloorIndex. destruct (decide (from ∈ FLOORS)) as [Hin|Hout].
      - destruct (indexOf_elem FLOORS from Hin) as [[? H] _].
        change (Z.of_nat (length FLOORS)) with 12%Z in H. lia.
      - apply indexOf_absent in Hout. lia. }
    unfold planDir.
    destruct (Z.gtb_spec (-1) (getFloorIndex from)); [lia|].
    simpl. f_equal. unfold slice.
    change (Z.of_nat (length FLOORS)) with 12%Z.
    change (-1 <? 0)%Z with true. cbn iota.
    destruct (Z.ltb_spec (getFloorIndex from) 0).
    + replace (Z.to_nat _) with 0%nat by lia. done.
    + replace (Z.to_nat _) with 0%nat by lia. done.
  - intros ->. by rewrite planDir_same, floorsToPass_same.
  - intros Hfrom Hto. apply indexOf_absent in Hfrom.
    change (indexOf FLOORS from) with (getFloorIndex from) in Hfrom.
    rewrite Hfrom. destruct (getFloorIndex_elem to Hto) as [Rt _].
    unfold planDir. destruct (Z.gtb_spec (getFloorIndex to) (-1)); [|lia].
    simpl. f_equal. rewrite slice_in_range by (simpl; lia).
    simpl. f_equal. lia.
Qed.

Lemma plan_edge_cases_witness :
  plan "F3" "F11" = (down, []) /\ plan "G" "F1" = (up, ["B2"; "B1"; "F1"]).
Proof.
  destruct (plan_edge_cases "F3" "F11") as (_ & _ & _ & H & _).
  destruct (plan_edge_cases "G" "F1") as (_ & _ & _ & _ & _ & H').
  split.
  - apply H. intros Hin. apply (bool_decide_pack _) in Hin.
    vm_compute in Hin. exact Hin.
  - apply H'.
    + intros Hin. apply (bool_decide_pack _) in Hin. vm_compute in Hin. exact Hin.
    + apply (bool_decide_unpack _). vm_compute. exact I.
Defined.
(** ** The cabin stays in the registry *)

Lemma forLoop_floors cf dopen t target floors w :
  let r := forLoop cf dopen t target floors w in
  currentFloor (hooks r.1) = currentFloor (hooks w)
  /\ displayFloor (hooks r.1) = displayFloor (hooks w)
  /\ exists c, r.2 = Some c /\ pcFloors (pc c) = floors.
Proof. destruct floors; simpl; eauto. Qed.

Lemma loopTest_floors cf dopen w :
  let r := loopTest cf dopen w in
  currentFloor (hooks r.1) = currentFloor (hooks w)
  /\ displayFloor (hooks r.1) = displayFloor (hooks w)
  /\ forall c, r.2 = Some c -> pcFloors (pc c) = [].
Proof.
  unfold loopTest. destruct (elevatorQueue w); simpl; [done|].
  destruct dopen; simpl; (split; [done|]); (split; [done|]);
    by intros c [= <-].
Qed.

Lemma resume_floors c w :
  FloorInv w -> c ∈ suspended w ->
  let r := resume c w in
  currentFloor (hooks r.1) ∈ FLOORS
  /\ displayFloor (hooks r.1) = currentFloor (hooks r.1)
  /\ forall c', r.2 = Some c' ->
       (length (pcFloors (pc c')) <= 12)%nat
       /\ forall f, f ∈ pcFloors (pc c') -> f ∈ FLOORS.
Proof.
  intros (Hcur & Hdisp & Hfl) Hc. destruct (Hfl c Hc) as [Hlen Hin].
  unfold resume.
  destruct (pc c) as [t|t d ci ti|t fl rest|t|] eqn:Hpc; simpl in *.
  - split; [done|]. split; [done|]. intros c' [= <-]. simpl.
    split; [lia|]. by intros f ?%not_elem_of_nil.
  - destruct (forLoop_floors (cl_currentFloor c) (cl_isDoorOpen c) (trip c) t
                (floorsToPass d ci ti) (setIsMoving true w))
      as (-> & -> & c' & -> & Hc').
    split; [done|]. split; [done|]. intros ? [= <-]. rewrite Hc'.
    split; [apply floorsToPass_length|]. intros f. apply floorsToPass_sublist.
  - destruct (forLoop_floors (cl_currentFloor c) (cl_isDoorOpen c) (trip c) t
                rest (setDisplayFloor fl (setCurrentFloor fl w)))
      as (-> & -> & c' & -> & Hc').
    simpl. split; [apply Hin, list_elem_of_here|].
    split; [done|]. intros ? [= <-]. rewrite Hc'. split; [lia|].
    intros f Hf. apply Hin. apply elem_of_cons. by right.
  - split; [done|]. split; [done|]. intros c' [= <-]. simpl.
    split; [lia|]. by intros f ?%not_elem_of_nil.
  - destruct (loopTest_floors (cl_currentFloor c) (cl_isDoorOpen c) w)
      as (-> & -> & Hk).
    split; [done|]. split; [done|]. intros c' Hc'.
    rewrite (Hk c' Hc'). simpl. split; [lia|]. by intros f ?%not_elem_of_nil.
Qed.

Lemma FloorInv_frame w w' :
  currentFloor (hooks w') = currentFloor (hooks w) ->
  displayFloor (hooks w') = displayFloor (hooks w) ->
  suspended w' = suspended w ->
  FloorInv w -> FloorInv w'.
Proof. intros Hc Hd Hs. unfold FloorInv. by rewrite Hc, Hd, Hs. Qed.

Lemma processQueue_FloorInv cf dopen w :
  isProcessing w = false -> suspended w = [] ->
  FloorInv w -> FloorInv (processQueue cf dopen w).
Proof.
  intros Hp Hs HI. rewrite processQueue_idle by done.
  destruct (elevatorQueue w) as [|t q] eqn:Hq; [done|].
  destruct (loopTest_floors cf dopen (setProcessing true w)) as (Hc & Hd & Hk).
  destruct HI as (Hcur & Hdisp & _). unfold FloorInv. simpl in *.
  rewrite Hc, Hd. split; [done|]. split; [done|].
  intros c Hin.
  destruct ((loopTest cf dopen (setProcessing true w)).2) as [c'|] eqn:Hk';
    simpl in Hin; [|by apply not_elem_of_nil in Hin].
  apply list_elem_of_singleton in Hin as ->.
  rewrite (Hk c' eq_refl). simpl. split; [lia|]. by intros f ?%not_elem_of_nil.
Qed.

Lemma tick_FloorInv i w : SchedInv w -> FloorInv w -> FloorInv (tick i w).
Proof.
  intros HS HI. destruct (tick_cases i w HS) as [->|(c & Hsus & -> & ->)]; [done|].
  destruct (resume_floors c w HI) as (Hc & Hd & Hk);
    [rewrite Hsus; apply list_elem_of_here|].
  unfold FloorInv. simpl. split; [done|]. split; [done|].
  intros c' Hin.
  destruct ((resume c w).2) as [c''|] eqn:Hk';
    simpl in Hin; [|by apply not_elem_of_nil in Hin].
  apply list_elem_of_singleton in Hin as ->. by apply (Hk c'').
Qed.

Lemma step_FloorInv o w : SchedInv w -> FloorInv w -> FloorInv (step o w).
Proof.
  intros HS HI. destruct o as [f|f|d| | | |i]; simpl.
  - unfold handleFloorSelect. rewrite !initAudio_eq.
    destruct (_ && _ && _); [by apply (FloorInv_frame w)|].
    destruct (bool_decide _); simpl; [by apply (FloorInv_frame w)|].
    destruct (isProcessing w) eqn:Hp; simpl.
    + by apply (FloorInv_frame w).
    + apply processQueue_FloorInv; [done|simpl; by apply idle_not_suspended|].
      by apply (FloorInv_frame w).
  - unfold handleOutsideFloorSelect. rewrite initAudio_eq.
    by apply (FloorInv_frame w).
  - unfold handleCallElevator. rewrite !initAudio_eq.
    destruct (_ || _); [|by apply (FloorInv_frame w)]. simpl.
    destruct (isProcessing w) eqn:Hp; simpl.
    + by apply (FloorInv_frame w).
    + apply processQueue_FloorInv; [done|simpl; by apply idle_not_suspended|].
      by apply (FloorInv_frame w).
  - unfold toggleView. rewrite !initAudio_eq.
    destruct (currentView _); by apply (FloorInv_frame w).
  - unfold handleDoorOpen. rewrite !initAudio_eq.
    destruct (negb _); by apply (FloorInv_frame w).
  - unfold handleDoorClose. rewrite !initAudio_eq.
    destruct (negb _); by apply (FloorInv_frame w).
  - by apply tick_FloorInv.
Qed.

Lemma reachable_FloorInv ops : FloorInv (run ops init).
Proof.
  enough (SchedInv (run ops init) /\ LogInv (run ops init) /\ FloorInv (run ops init))
    as (_ & _ & H) by done.
  apply (run_invariant (fun w => SchedInv w /\ LogInv w /\ FloorInv w)).
  - destruct init_inv as [? ?]. split; [done|]. split; [done|].
    split; [|split; [done|]].
    + apply (bool_decide_unpack _). vm_compute. exact I.
    + intros c Hc. simpl in Hc. by apply not_elem_of_nil in Hc.
  - intros o w (HS & HL & HI).
    destruct (step_inv o w) as [? ?]; [done|].
    split; [done|]. split; [done|]. by apply step_FloorInv.
Qed.

(** X3: after any sequence of clicks and timer expiries the cabin is at a
    registered floor, the displayed floor equals the cabin's floor, and
    [getFloorIndex] of the cabin's floor is a valid position 0..11. *)
Theorem cabin_stays_in_registry (ops : list Op) :
  let w := run ops init in
  currentFloor (hooks w) ∈ FLOORS
  /\ displayFloor (hooks w) = currentFloor (hooks w)
  /\ (0 <= getFloorIndex (currentFloor (hooks w)) < 12)%Z.
Proof.
  destruct (reachable_FloorInv ops) as (Hc & Hd & _).
  split; [done|]. split; [done|]. by apply getFloorIndex_elem.
Qed.

(** ** Lit buttons and repeated selections *)

(** X12: a floor button is lit ([selectedFloors]) only while its floor is
    still waiting in [elevatorQueue] or is the target of the trip in flight;
    when no [processQueue] invocation is active nothing is lit, the queue is
    empty and no target is shown; a non-empty queue always has an active
    invocation that will serve it. *)
Theorem lit_buttons_are_pending (ops : list Op) :
  let w := run ops init in
  (forall f, f ∈ selectedFloors (hooks w) ->
     f ∈ elevatorQueue w
     \/ exists c, suspended w = [c] /\ inFlight (pc c) = Some f)
  /\ (isProcessing w = false ->
      selectedFloors (hooks w) = ∅ /\ elevatorQueue w = []
      /\ targetFloor (hooks w) = None)
  /\ (elevatorQueue w ≠ [] -> isProcessing w = true).
Proof.
  intros w. destruct (reachable_inv ops) as [HS _].
  pose proof (reachable_SelInv ops) as HI.
  pose proof (idle_nothing_selected ops) as Hidle.
  fold w in HS, HI, Hidle. unfold SchedInv, Idle, Running in HS.
  destruct (suspended w) as [|c [|]] eqn:Hsus; [| |done].
  - destruct HS as (Hp & Hq & _ & _ & Ht).
    split; [|split; [by auto|by rewrite Hq]].
    intros f Hf. rewrite (Hidle Hp) in Hf. by apply not_elem_of_empty in Hf.
  - destruct HS as (Hp & _). split; [|split; [congruence|done]].
    intros f Hf. destruct (HI f Hf) as [Hin|(c' & Hc' & Hfl)]; [by left|].
    right. exists c. rewrite Hsus in Hc'.
    apply list_elem_of_singleton in Hc' as ->. done.
Qed.

Lemma lit_buttons_are_pending_witness :
  let w := run [SelectFloor "F5"; SelectFloor "F3"] init in
  "F3" ∈ elevatorQueue w
  \/ exists c, suspended w = [c] /\ inFlight (pc c) = Some "F3".
Proof.
  apply (proj1 (lit_buttons_are_pending [SelectFloor "F5"; SelectFloor "F3"])).
  apply (bool_decide_unpack _). vm_compute. exact I.
Defined.

Lemma processQueue_hooks cf dopen w :
  selectedFloors (hooks (processQueue cf dopen w)) = selectedFloors (hooks w)
  /\ audioLoaded (hooks (processQueue cf dopen w)) = audioLoaded (hooks w).
Proof.
  unfold processQueue. destruct (_ || _); [done|].
  unfold loopTest. simpl. destruct (elevatorQueue w); [done|].
  by destruct dopen.
Qed.

Lemma select_lit_noop f w :
  f ∈ selectedFloors (hooks w) -> handleFloorSelect f w = initAudio w.
Proof.
  intros Hf. unfold handleFloorSelect. rewrite (bool_decide_true _ Hf).
  simpl. by destruct (_ && _ && _).
Qed.

Lemma select_same_floor_noop f w :
  bool_decide (f = currentFloor (hooks w)) && negb (isMoving (hooks w))
  && isDoorOpen (hooks w) = true ->
  handleFloorSelect f w = initAudio w.
Proof. intros Hg. unfold handleFloorSelect. by rewrite Hg. Qed.

Lemma handleFloorSelect_result f w :
  audioLoaded (hooks (handleFloorSelect f w)) = true
  /\ (f ∈ selectedFloors (hooks (handleFloorSelect f w))
      \/ (bool_decide (f = currentFloor (hooks w)) && negb (isMoving (hooks w))
          && isDoorOpen (hooks w) = true
          /\ handleFloorSelect f w = initAudio w)).
Proof.
  destruct (bool_decide (f = currentFloor (hooks w)) && negb (isMoving (hooks w))
            && isDoorOpen (hooks w)) eqn:Hguard.
  - rewrite select_same_floor_noop by done. rewrite initAudio_eq. split; [done|].
    right. by split.
  - unfold handleFloorSelect. rewrite Hguard, !initAudio_eq.
    destruct (bool_decide_reflect (f ∈ selectedFloors (hooks w))) as [Hin|Hout];
      simpl; [split; [done|by left]|].
    destruct (isProcessing w); simpl.
    + split; [done|]. left. apply elem_of_union. right.
      by apply elem_of_singleton.
    + rewrite (proj1 (processQueue_hooks _ _ _)), (proj2 (processQueue_hooks _ _ _)).
      simpl. split; [done|]. left. apply elem_of_union. right.
      by apply elem_of_singleton.
Qed.

(** X4: [handleFloorSelect] is idempotent: in every state, pressing the same
    floor button twice in a row leaves the lift in the same state as pressing
    it once. *)
Theorem selectFloor_idempotent (f : string) (w : World) :
  run (selectFloor f ++ selectFloor f)%list w = run (selectFloor f) w.
Proof.
  unfold selectFloor, run; simpl.
  destruct (handleFloorSelect_result f w) as [Hloaded [Hlit|[Hguard Heq]]].
  - rewrite select_lit_noop by done. by apply initAudio_loaded.
  - rewrite select_same_floor_noop; [by apply initAudio_loaded|].
    rewrite Heq, initAudio_eq. simpl. exact Hguard.
Qed.

(** ** Draining the queue *)

Lemma arrivals_snoc (l : list Event) (e : Event) :
  arrivals (l ++ [e])
  = (arrivals l ++ match cue e with arrive f => [f] | _ => [] end)%list.
Proof.
  unfold arrivals. rewrite omap_app. simpl. by destruct (cue e).
Qed.

(** What one resumption does to the measure, to the announced arrivals and
    the pending targets, and to the door. *)
Lemma resume_progress c w :
  let r := resume c w in
  let pend k := match k with Some c' => toAnnounce (pc c') | None => [] end in
  (match r.2 with
   | Some c' =>
       (rank (pc c') + 18 * length (elevatorQueue r.1)
        < rank (pc c) + 18 * length (elevatorQueue w))%nat
   | None => elevatorQueue r.1 = []
   end)
  /\ (arrivals (played r.1) ++ pend r.2 ++ elevatorQueue r.1
      = arrivals (played w) ++ toAnnounce (pc c) ++ elevatorQueue w)%list
  /\ ((pc c = AwaitSettle -> isDoorOpen (hooks w) = true) ->
      match r.2 with
      | Some c' => pc c' = AwaitSettle -> isDoorOpen (hooks r.1) = true
      | None => isDoorOpen (hooks r.1) = true
      end).
Proof.
  unfold resume.
  destruct (pc c) as [t|t d ci ti|t fl rest|t|] eqn:Hpc; simpl.
  - rewrite arrivals_snoc. destruct (planDir _ _); simpl;
      rewrite ?app_nil_r; (split; [lia|]); by split.
  - pose proof (floorsToPass_length d ci ti) as Hlen.
    destruct (floorsToPass d ci ti) as [|f fs]; simpl in *.
    + rewrite arrivals_snoc. simpl. rewrite <- !app_assoc.
      split; [lia|]. by split.
    + split; [lia|]. by split.
  - destruct rest as [|f fs]; simpl.
    + rewrite arrivals_snoc. simpl. rewrite <- !app_assoc.
      split; [lia|]. by split.
    + split; [lia|]. by split.
  - rewrite arrivals_snoc. simpl. rewrite app_nil_r. split; [lia|]. by split.
  - unfold loopTest. destruct (elevatorQueue w) as [|t q] eqn:Hq; simpl.
    + rewrite Hq. split; [done|]. split; [done|]. auto.
    + destruct (cl_isDoorOpen c); simpl.
      * rewrite arrivals_snoc. simpl. rewrite app_nil_r.
        split; [lia|]. by split.
      * rewrite arrivals_snoc. destruct (planDir _ _); simpl;
          rewrite app_nil_r; (split; [lia|]); by split.
Qed.

Lemma fuel_running w c : suspended w = [c] -> (0 < fuel w)%nat.
Proof. intros Hs. unfold fuel. rewrite Hs. destruct (pc c); simpl; lia. Qed.

Lemma tick_single w c :
  suspended w = [c] ->
  tick 0 w = setSuspended (option_list (resume c w).2) (resume c w).1.
Proof.
  intros Hsus. unfold tick. rewrite Hsus. simpl.
  pose proof (resume_suspended c w) as Hs'.
  destruct (resume c w) as [w' [c'|]]; simpl in *; by rewrite Hs', Hsus.
Qed.

Lemma tick_not_running i w : suspended w = [] -> tick i w = w.
Proof. intros Hs. unfold tick. by rewrite Hs. Qed.

Lemma tick_fuel w c : suspended w = [c] -> (fuel (tick 0 w) < fuel w)%nat.
Proof.
  intros Hsus. rewrite (tick_single w c Hsus).
  destruct (resume_progress c w) as [Hlt _].
  unfold fuel. simpl. rewrite Hsus.
  destruct ((resume c w).2) as [k|]; simpl; [done|].
  destruct (pc c); simpl; lia.
Qed.

(** A property kept by every timer expiry is kept by any number of them. *)
Lemma ticks_preserve (P : World -> Prop) :
  (forall w, P w -> P (tick 0 w)) ->
  forall n w, P w -> P (run (replicate n (Tick 0)) w).
Proof.
  intros Hstep n. induction n as [|n IH]; intros w HP; [done|].
  simpl. apply IH. by apply Hstep.
Qed.

Lemma tick_single_pool w :
  (length (suspended w) <= 1)%nat -> (length (suspended (tick 0 w)) <= 1)%nat.
Proof.
  intros Hl. destruct (suspended w) as [|c [|]] eqn:Hsus; simpl in Hl; [| |lia].
  - rewrite tick_not_running by done. rewrite Hsus. simpl. lia.
  - rewrite (tick_single w c Hsus). simpl.
    destruct ((resume c w).2); simpl; lia.
Qed.

Lemma ticks_finish n w :
  (length (suspended w) <= 1)%nat -> (fuel w <= n)%nat ->
  suspended (run (replicate n (Tick 0)) w) = [].
Proof.
  revert w. induction n as [|n IH]; intros w Hl Hfuel.
  - simpl. destruct (suspended w) as [|c [|]] eqn:Hsus; simpl in Hl;
      [done| |lia].
    pose proof (fuel_running w c Hsus). lia.
  - simpl. apply IH; [by apply tick_single_pool|].
    destruct (suspended w) as [|c [|]] eqn:Hsus; simpl in Hl; [| |lia].
    + rewrite tick_not_running by done. unfold fuel. rewrite Hsus. lia.
    + pose proof (tick_fuel w c Hsus). lia.
Qed.

Lemma reachable_single_pool ops : (length (suspended (run ops init)) <= 1)%nat.
Proof.
  destruct (reachable_inv ops) as [HS _]. unfold SchedInv in HS.
  destruct (suspended (run ops init)) as [|c [|]]; simpl; [lia|lia|done].
Qed.

Lemma run_app_init ops1 ops2 :
  run (ops1 ++ ops2)%list init = run ops2 (run ops1 init).
Proof. unfold run. by rewrite foldl_app. Qed.

Lemma drain_reachable ops :
  drain (run ops init)
  = run (ops ++ replicate (fuel (run ops init)) (Tick 0))%list init.
Proof. unfold drain, run. by rewrite foldl_app. Qed.

Lemma drain_idle ops :
  suspended (drain (run ops init)) = [] /\ Idle (drain (run ops init)).
Proof.
  assert (Hs : suspended (drain (run ops init)) = []).
  { apply ticks_finish; [apply reachable_single_pool|done]. }
  split; [done|]. rewrite drain_reachable in *.
  destruct (reachable_inv (ops ++ replicate (fuel (run ops init)) (Tick 0))) as [HS _].
  unfold SchedInv in HS. by rewrite Hs in HS.
Qed.

(** X5: [processQueue] always finishes.  From any reachable state, letting
    the timers expire with no further click ([drain]) ends with no suspended
    invocation, [isProcessing] false, the queue empty, the cabin at rest, no
    direction, no target and no lit button; the number of timer expiries
    needed is at most 17 for the trip in flight plus 18 per queued floor. *)
Theorem scheduler_drains (ops : list Op) :
  let w := run ops init in
  suspended (drain w) = [] /\ isProcessing (drain w) = false
  /\ elevatorQueue (drain w) = []
  /\ isMoving (hooks (drain w)) = false
  /\ direction (hooks (drain w)) = None
  /\ targetFloor (hooks (drain w)) = None
  /\ selectedFloors (hooks (drain w)) = ∅
  /\ (fuel w <= 17 + 18 * length (elevatorQueue w))%nat.
Proof.
  intros w. destruct (drain_idle ops) as [Hs (Hp & Hq & Hm & Hd & Ht)].
  fold w in Hs, Hp, Hq, Hm, Hd, Ht.
  assert (Hfuel : (fuel w <= 17 + 18 * length (elevatorQueue w))%nat).
  { unfold fuel. destruct (suspended w) as [|c [|]] eqn:Hsus; [lia| |lia].
    pose proof (reachable_FloorInv ops) as (_ & _ & Hfl).
    destruct (Hfl c) as [Hlen _]; [fold w; rewrite Hsus; apply list_elem_of_here|].
    destruct (pc c) eqn:Hpc; simpl in *; lia. }
  repeat (split; [done|]). split; [|done].
  unfold w in *. rewrite drain_reachable in *.
  by apply idle_nothing_selected.
Qed.

Lemma tick_conserves w :
  (length (suspended w) <= 1)%nat ->
  (arrivals (played (tick 0 w)) ++ pendingTargets (tick 0 w)
   = arrivals (played w) ++ pendingTargets w)%list.
Proof.
  intros Hl. destruct (suspended w) as [|c [|]] eqn:Hsus; simpl in Hl; [| |lia].
  - by rewrite tick_not_running.
  - rewrite (tick_single w c Hsus).
    destruct (resume_progress c w) as (_ & Hcons & _).
    unfold pendingTargets, announcing. simpl. rewrite Hsus, <- Hcons.
    by destruct ((resume c w).2).
Qed.

Lemma tick_doorReady w :
  (length (suspended w) <= 1)%nat -> doorReady w -> doorReady (tick 0 w).
Proof.
  intros Hl HD. unfold doorReady in HD.
  destruct (suspended w) as [|c [|]] eqn:Hsus; simpl in Hl; [| |lia].
  - rewrite tick_not_running by done. unfold doorReady. by rewrite Hsus.
  - rewrite (tick_single w c Hsus).
    destruct (resume_progress c w) as (_ & _ & Hdoor). specialize (Hdoor HD).
    unfold doorReady. simpl. by destruct ((resume c w).2).
Qed.

Lemma last_cons_default {A} (x y : A) (l : list A) :
  default y (last (x :: l)) = default x (last l).
Proof. by destruct l as [|z l]; [|rewrite last_cons_cons; destruct (last (z :: l)) eqn:E; [|by apply last_None in E]]. Qed.

Lemma tick_restingFloor w :
  (length (suspended w) <= 1)%nat -> elevatorQueue w = [] ->
  elevatorQueue (tick 0 w) = [] /\ restingFloor (tick 0 w) = restingFloor w.
Proof.
  intros Hl Hq. destruct (suspended w) as [|c [|]] eqn:Hsus; simpl in Hl; [| |lia].
  - by rewrite tick_not_running.
  - rewrite (tick_single w c Hsus). unfold restingFloor. rewrite Hsus. simpl.
    unfold resume.
    destruct (pc c) as [t|t d ci ti|t fl rest|t|] eqn:Hpc; simpl.
    + done.
    + destruct (floorsToPass d ci ti) as [|f fs]; simpl; [done|].
      split; [done|]. by rewrite last_cons_default.
    + destruct rest as [|f fs]; simpl; [done|].
      split; [done|]. by rewrite last_cons_default.
    + done.
    + unfold loopTest. by rewrite Hq.
Qed.

(** Letting the timers run from a state with at most one invocation. *)
Lemma drain_facts w :
  (length (suspended w) <= 1)%nat ->
  suspended (drain w) = []
  /\ (arrivals (played (drain w)) ++ elevatorQueue (drain w)
      = arrivals (played w) ++ pendingTargets w)%list
  /\ (doorReady w -> isDoorOpen (hooks (drain w)) = true)
  /\ (elevatorQueue w = [] ->
      elevatorQueue (drain w) = []
      /\ currentFloor (hooks (drain w)) = restingFloor w).
Proof.
  intros Hl.
  assert (Hs : suspended (drain w) = []) by (by apply ticks_finish).
  split; [done|]. split; [|split].
  - pose proof (ticks_preserve
      (fun w0 => (length (suspended w0) <= 1)%nat
                 /\ (arrivals (played w0) ++ pendingTargets w0
                     = arrivals (played w) ++ pendingTargets w)%list)) as HP.
    destruct (HP (fun w0 '(conj H1 H2) =>
                    conj (tick_single_pool w0 H1)
                         (eq_trans (tick_conserves w0 H1) H2))
                 (fuel w) w (conj Hl eq_refl)) as [_ Hcons].
    fold (drain w) in Hcons. rewrite <- Hcons.
    unfold pendingTargets, announcing. by rewrite Hs.
  - intros HD.
    pose proof (ticks_preserve
      (fun w0 => (length (suspended w0) <= 1)%nat /\ doorReady w0)) as HP.
    destruct (HP (fun w0 '(conj H1 H2) =>
                    conj (tick_single_pool w0 H1) (tick_doorReady w0 H1 H2))
                 (fuel w) w (conj Hl HD)) as [_ HD'].
    fold (drain w) in HD'. unfold doorReady in HD'. by rewrite Hs in HD'.
  - intros Hq.
    pose proof (ticks_preserve
      (fun w0 => (length (suspended w0) <= 1)%nat /\ elevatorQueue w0 = []
                 /\ restingFloor w0 = restingFloor w)) as HP.
    destruct (HP (fun w0 '(conj H1 (conj H2 H3)) =>
                    conj (tick_single_pool w0 H1)
                      (conj (proj1 (tick_restingFloor w0 H1 H2))
                         (eq_trans (proj2 (tick_restingFloor w0 H1 H2)) H3)))
                 (fuel w) w (conj Hl (conj Hq eq_refl))) as (_ & Hq' & Hr).
    fold (drain w) in Hq', Hr. split; [done|]. rewrite <- Hr.
    unfold restingFloor. by rewrite Hs.
Qed.

(** X6: nothing pending is lost or served twice.  From any reachable state,
    letting the timers expire adds to the arrival announcements exactly the
    target in flight that is not yet announced followed by the queued floors,
    in queue order; and when a trip was in flight the door ends open. *)
Theorem drain_serves_pending (ops : list Op) :
  let w := run ops init in
  arrivals (played (drain w)) = (arrivals (played w) ++ pendingTargets w)%list
  /\ (forall c t, suspended w = [c] -> inFlight (pc c) = Some t ->
       isDoorOpen (hooks (drain w)) = true).
Proof.
  intros w. pose proof (reachable_single_pool ops) as Hl. fold w in Hl.
  destruct (drain_facts w Hl) as (Hs & Hcons & Hdoor & _).
  destruct (drain_idle ops) as (_ & _ & Hq & _). fold w in Hq.
  rewrite Hq, app_nil_r in Hcons. split; [done|].
  intros c t Hsus Hfl. apply Hdoor. unfold doorReady. rewrite Hsus.
  intros E. rewrite E in Hfl. discriminate.
Qed.

Lemma drain_serves_pending_witness :
  let w := run [SelectFloor "F5"; SelectFloor "F3"; Tick 0] init in
  arrivals (played (drain w)) = ["F5"; "F3"]
  /\ isDoorOpen (hooks (drain w)) = true.
Proof.
  intros w.
  destruct (drain_serves_pending [SelectFloor "F5"; SelectFloor "F3"; Tick 0])
    as [Harr Hdoor].
  split; [exact Harr|].
  apply (Hdoor (mkCoroutine "F1" true (AwaitDeparture "F5" up 2 6) 0) "F5");
    vm_compute; reflexivity.
Defined.

(** ** A request made at rest *)

Lemma plan_last (from to : string) :
  from ∈ FLOORS -> to ∈ FLOORS -> from ≠ to ->
  last (plan from to).2 = Some to.
Proof.
  intros Hf Ht Hne.
  destruct (getFloorIndex_elem from Hf) as [Rf _].
  destruct (getFloorIndex_elem to Ht) as [Rt Lt].
  assert (Hdist : getFloorIndex from ≠ getFloorIndex to).
  { intros E. apply Hne. by apply (indexOf_inj FLOORS). }
  assert (Hlen : Z.of_nat (length FLOORS) = 12%Z) by reflexivity.
  unfold plan, planDir. simpl.
  destruct (Z.gtb_spec (getFloorIndex to) (getFloorIndex from)); simpl.
  - pose proof (slice_length FLOORS (getFloorIndex from + 1) (getFloorIndex to + 1)) as Hl.
    rewrite last_lookup, slice_lookup by lia.
    rewrite <- Lt. f_equal. lia.
  - pose proof (slice_length FLOORS (getFloorIndex to) (getFloorIndex from)) as Hl.
    rewrite last_lookup, length_reverse, reverse_lookup by lia.
    rewrite slice_lookup by lia. rewrite <- Lt. f_equal. lia.
Qed.

(** An invocation started by a handler with one queued target. *)
Lemma started_trip cf dopen w t :
  isProcessing w = false -> suspended w = [] -> elevatorQueue w = [t] ->
  cf = currentFloor (hooks w) ->
  let w1 := processQueue cf dopen w in
  (length (suspended w1) <= 1)%nat /\ elevatorQueue w1 = []
  /\ restingFloor w1 = default cf (last (plan cf t).2)
  /\ doorReady w1
  /\ arrivals (played w1) = arrivals (played w)
  /\ pendingTargets w1 = [t].
Proof.
  intros Hp Hs Hq ->. rewrite processQueue_idle by done. rewrite Hq.
  unfold loopTest. simpl. rewrite Hq. unfold restingFloor, doorReady, pendingTargets, announcing.
  destruct dopen; simpl; rewrite arrivals_snoc.
  - simpl. rewrite app_nil_r. repeat split; (lia || done).
  - destruct (planDir _ _); simpl; rewrite app_nil_r; repeat split; (lia || done).
Qed.

Lemma select_at_rest f w :
  isProcessing w = false -> f ∉ selectedFloors (hooks w) ->
  f ≠ currentFloor (hooks w) ->
  handleFloorSelect f w
  = processQueue (currentFloor (hooks w)) (isDoorOpen (hooks w))
      (setQueue (elevatorQueue w ++ [f])
         (setSelectedFloors (fun prev => prev ∪ {[f]}) (setAudioLoaded true w))).
Proof.
  intros Hp Hsel Hne. unfold handleFloorSelect. rewrite !initAudio_eq.
  rewrite (bool_decide_false _ Hne), (bool_decide_false _ Hsel). simpl.
  by rewrite Hp.
Qed.

Lemma call_at_rest f d w :
  isProcessing w = false -> f ≠ currentFloor (hooks w) ->
  handleCallElevator d (handleOutsideFloorSelect f w)
  = processQueue (currentFloor (hooks w)) (isDoorOpen (hooks w))
      (setQueue (f :: elevatorQueue w)
         (announceDirection None d
            (setCallDirection (Some d)
               (setOutsideFloor f (setAudioLoaded true w))))).
Proof.
  intros Hp Hne. unfold handleCallElevator, handleOutsideFloorSelect.
  rewrite !initAudio_eq. simpl.
  rewrite bool_decide_false by done. simpl. by rewrite Hp.
Qed.

(** X8: a request made while the lift is idle is served.  When no invocation
    is active and a registered floor other than the cabin's is selected in
    the cabin or called from outside, then after the timers expire the cabin
    and the display are at that floor, the door is open, the scheduler is
    idle with an empty queue, and exactly one arrival, at that floor, has
    been announced. *)
Theorem request_at_rest_is_served (ops : list Op) (F : string) (w1 : World) :
  let w := run ops init in
  isProcessing w = false -> F ∈ FLOORS -> F ≠ currentFloor (hooks w) ->
  (w1 = run (selectFloor F) w \/ exists d, w1 = run (callFromOutside F d) w) ->
  currentFloor (hooks (drain w1)) = F
  /\ displayFloor (hooks (drain w1)) = F
  /\ isDoorOpen (hooks (drain w1)) = true
  /\ isProcessing (drain w1) = false
  /\ elevatorQueue (drain w1) = []
  /\ arrivals (played (drain w1)) = (arrivals (played w) ++ [F])%list.
Proof.
  intros w Hp HF Hne Hw1.
  destruct (reachable_inv ops) as [HS _]. fold w in HS.
  pose proof (idle_not_suspended w HS Hp) as Hsus.
  unfold SchedInv in HS. rewrite Hsus in HS. destruct HS as (_ & Hq & Hm & _).
  pose proof (idle_nothing_selected ops Hp) as Hsel. fold w in Hsel.
  destruct (reachable_FloorInv ops) as (Hcur & _). fold w in Hcur.
  assert (Hstart : exists w0 dopen ops1,
            w1 = processQueue (currentFloor (hooks w)) dopen w0
            /\ w1 = run ops1 init
            /\ isProcessing w0 = false /\ suspended w0 = []
            /\ elevatorQueue w0 = [F]
            /\ currentFloor (hooks w0) = currentFloor (hooks w)
            /\ arrivals (played w0) = arrivals (played w)).
  { destruct Hw1 as [->|[d ->]].
    - eexists _, _, (ops ++ selectFloor F)%list.
      split; [|split].
      + unfold selectFloor, run at 1; simpl. apply select_at_rest; [done| |done].
        rewrite Hsel. apply not_elem_of_empty.
      + unfold w, run. by rewrite foldl_app.
      + simpl. rewrite Hq. done.
    - eexists _, _, (ops ++ callFromOutside F d)%list.
      split; [|split].
      + unfold callFromOutside, run at 1; simpl. by apply call_at_rest.
      + unfold w, run. by rewrite foldl_app.
      + simpl. rewrite Hq. repeat (split; [done|]).
        rewrite arrivals_snoc. destruct d; simpl; by rewrite app_nil_r. }
  destruct Hstart as (w0 & dopen & ops1 & -> & Hreach & Hp0 & Hs0 & Hq0 & Hc0 & Ha0).
  destruct (started_trip (currentFloor (hooks w)) dopen w0 F)
    as (Hl & Hq1 & Hrest & Hdoor & Harr & Hpend); [done..|].
  destruct (drain_facts _ Hl) as (Hs' & Hcons & Hopen & Hfloor).
  destruct (Hfloor Hq1) as [Hq' Hcf].
  rewrite Hrest, plan_last in Hcf by done. simpl in Hcf.
  rewrite Hq', app_nil_r, Harr, Hpend, Ha0 in Hcons.
  split; [done|]. split.
  - rewrite Hreach, drain_reachable.
    destruct (reachable_FloorInv (ops1 ++ replicate (fuel (run ops1 init)) (Tick 0)))
      as (_ & -> & _).
    by rewrite <- drain_reachable, <- Hreach.
  - split; [by apply Hopen|]. split; [|by split].
    rewrite Hreach. by destruct (drain_idle ops1) as (_ & ? & _).
Qed.

Lemma request_at_rest_is_served_witness :
  let w1 := run (callFromOutside "B2" down) init in
  currentFloor (hooks (drain w1)) = "B2"
  /\ isDoorOpen (hooks (drain w1)) = true
  /\ arrivals (played (drain w1)) = ["B2"].
Proof.
  intros w1.
  destruct (request_at_rest_is_served [] "B2" w1) as (Hc & _ & Hd & _ & _ & Ha).
  - reflexivity.
  - apply (bool_decide_unpack _). vm_compute. exact I.
  - discriminate.
  - right. by exists down.
  - exact (conj Hc (conj Hd Ha)).
Defined.

(** ** The order of the cues of a trip *)

Lemma protocol_snoc p l e :
  protocol p (l ++ [e]) = protocol p l ≫= fun q => cueStep q e.
Proof. unfold protocol. by rewrite foldl_app. Qed.

Lemma tripCues_trip t c w :
  tripCues (playAudio (Some t) c w) = (tripCues w ++ [(t, c)])%list.
Proof. unfold tripCues. simpl. by rewrite omap_app. Qed.

Lemma tripCues_click c w : tripCues (playAudio None c w) = tripCues w.
Proof. unfold tripCues. simpl. rewrite omap_app. simpl. by rewrite app_nil_r. Qed.

Lemma cueStep_lastCue p e q : cueStep p e = Some q -> lastCue q = Some e.
Proof.
  destruct e as [t c]. unfold cueStep. simpl.
  destruct p as [n|t'|t' b d|t' b f], c; try discriminate;
    case_bool_decide; try discriminate; subst; by intros [= <-].
Qed.

Lemma protocol_lastCue l q :
  protocol (Between 0) l = Some q -> last l = lastCue q.
Proof.
  destruct l as [|e l] using rev_ind.
  - by intros [= <-].
  - rewrite protocol_snoc, last_snoc.
    destruct (protocol (Between 0) l) as [p|]; [|discriminate]. simpl.
    intros H. by rewrite (cueStep_lastCue _ _ _ H).
Qed.

Lemma announceAndWait_proto cf dopen t target w p :
  protocol (Between 0) (tripCues w) = Some p ->
  (p = Closed t /\ dopen = true) \/ (p = Between t /\ dopen = false) ->
  ProtoPost (announceAndWait cf dopen t target w).
Proof.
  intros Hp Hcase. unfold ProtoPost, announceAndWait, announceDirection.
  cbn -[tripCues playAudio protocol planDir getFloorIndex].
  split; [|by intros c [= <-]].
  rewrite tripCues_trip, protocol_snoc.
  change (tripCues (setDirection _ w)) with (tripCues w). rewrite Hp.
  unfold phase. cbn -[planDir getFloorIndex].
  destruct Hcase as [[-> ->]|[-> ->]]; destruct (planDir _ _); simpl;
    by rewrite bool_decide_true.
Qed.

Lemma loopTest_proto cf dopen w :
  protocol (Between 0) (tripCues w) = Some (Between (trips w)) ->
  ProtoPost (loopTest cf dopen w).
Proof.
  intros Hp. unfold loopTest. destruct (elevatorQueue w) as [|t q]; [by split|].
  destruct dopen.
  - unfold ProtoPost, announceDoor. cbn -[tripCues playAudio protocol].
    split; [|by intros c [= <-]].
    rewrite tripCues_trip, protocol_snoc.
    change (tripCues (setIsDoorOpen _ _)) with (tripCues w). rewrite Hp. simpl.
    by rewrite bool_decide_true.
  - apply (announceAndWait_proto _ _ _ _ _ (Between (trips w))); [done|].
    by right.
Qed.

Lemma resume_proto c w :
  S (trip c) = trips w -> closing c ->
  protocol (Between 0) (tripCues w) = Some (phase c (trips w)) ->
  ProtoPost (resume c w).
Proof.
  intros Ht Hc Hp. unfold resume. unfold phase, closing in *.
  destruct (pc c) as [t|t d ci ti|t fl rest|t|] eqn:Hpc.
  - apply (announceAndWait_proto _ _ _ _ _ (Closed (trip c))); [done|by left].
  - destruct (floorsToPass d ci ti) as [|f fs].
    + unfold ProtoPost, forLoop, announceArrival.
      cbn -[tripCues playAudio protocol planDir getFloorIndex].
      split; [|by intros c' [= <-]].
      rewrite tripCues_trip, protocol_snoc.
      change (tripCues (setDirection _ _)) with (tripCues w). rewrite Hp. simpl.
      by rewrite bool_decide_true.
    + split; [|by intros c' [= <-]]. done.
  - destruct rest as [|f fs].
    + unfold ProtoPost, forLoop, announceArrival.
      cbn -[tripCues playAudio protocol planDir getFloorIndex].
      split; [|by intros c' [= <-]].
      rewrite tripCues_trip, protocol_snoc.
      change (tripCues (setDirection _ _)) with (tripCues w). rewrite Hp. simpl.
      by rewrite bool_decide_true.
    + split; [|by intros c' [= <-]]. done.
  - unfold ProtoPost, announceDoor. cbn -[tripCues playAudio protocol].
    split; [|by intros c' [= <-]].
    change (tripCues (setSelectedFloors _ ?x)) with (tripCues x).
    rewrite tripCues_trip, protocol_snoc.
    change (tripCues (setIsDoorOpen _ _)) with (tripCues w). rewrite Hp. simpl.
    rewrite bool_decide_true by done. by rewrite Ht.
  - by apply loopTest_proto.
Qed.

Lemma ProtoInv_frame w w' :
  suspended w' = suspended w -> trips w' = trips w ->
  tripCues w' = tripCues w -> ProtoInv w -> ProtoInv w'.
Proof.
  intros Hs Ht Hc. unfold ProtoInv, protoOf. by rewrite Hs, Ht, Hc.
Qed.

Lemma ProtoInv_stretch (r : Stretch) :
  ProtoPost r -> ProtoInv (setSuspended (option_list r.2) r.1).
Proof.
  destruct r as [w' k]. unfold ProtoPost, ProtoInv, protoOf. simpl.
  change (tripCues (setSuspended _ w')) with (tripCues w').
  intros [-> Hc]. split; [by destruct k|].
  intros c Hin. destruct k as [c'|]; simpl in Hin.
  - apply list_elem_of_singleton in Hin as ->. by apply Hc.
  - by apply elem_of_nil in Hin.
Qed.

Lemma processQueue_ProtoInv cf dopen w :
  isProcessing w = false -> suspended w = [] ->
  ProtoInv w -> ProtoInv (processQueue cf dopen w).
Proof.
  intros Hp Hs HI. rewrite processQueue_idle by done.
  destruct (elevatorQueue w) as [|t q] eqn:Hq; [done|].
  apply ProtoInv_stretch, loopTest_proto.
  unfold ProtoInv, protoOf in HI. rewrite Hs in HI. by destruct HI.
Qed.

Lemma tick_ProtoInv i w : SchedInv w -> ProtoInv w -> ProtoInv (tick i w).
Proof.
  intros HS HI. destruct (tick_cases i w HS) as [->|(c & Hsus & -> & ->)]; [done|].
  unfold SchedInv, Running in HS. rewrite Hsus in HS. destruct HS as (_ & Ht & _).
  unfold ProtoInv, protoOf in HI. rewrite Hsus in HI. destruct HI as [HI Hc].
  apply ProtoInv_stretch, resume_proto; [done| |done].
  apply Hc, list_elem_of_here.
Qed.

Lemma step_ProtoInv o w : SchedInv w -> ProtoInv w -> ProtoInv (step o w).
Proof.
  intros HS HI. destruct o as [f|f|d| | | |i]; simpl.
  - unfold handleFloorSelect. rewrite !initAudio_eq.
    destruct (_ && _ && _); [by apply (ProtoInv_frame w)|].
    destruct (bool_decide _); simpl; [by apply (ProtoInv_frame w)|].
    destruct (isProcessing w) eqn:Hp; simpl.
    + by apply (ProtoInv_frame w).
    + apply processQueue_ProtoInv; [done|simpl; by apply idle_not_suspended|].
      by apply (ProtoInv_frame w).
  - unfold handleOutsideFloorSelect. rewrite initAudio_eq.
    by apply (ProtoInv_frame w).
  - unfold handleCallElevator. rewrite !initAudio_eq.
    assert (H1 : ProtoInv (announceDirection None d
                   (setCallDirection (Some d) (setAudioLoaded true w)))).
    { apply (ProtoInv_frame w); [done|done| |done].
      unfold announceDirection. by rewrite tripCues_click. }
    destruct (_ || _); [|done]. simpl.
    destruct (isProcessing w) eqn:Hp; simpl.
    + revert H1. by apply ProtoInv_frame.
    + apply processQueue_ProtoInv; [done|simpl; by apply idle_not_suspended|].
      revert H1. by apply ProtoInv_frame.
  - unfold toggleView. rewrite !initAudio_eq.
    destruct (currentView _); by apply (ProtoInv_frame w).
  - unfold handleDoorOpen. rewrite !initAudio_eq.
    destruct (negb _); [|by apply (ProtoInv_frame w)].
    apply (ProtoInv_frame w); [done|done| |done].
    unfold announceDoor. by rewrite tripCues_click.
  - unfold handleDoorClose. rewrite !initAudio_eq.
    destruct (negb _); [|by apply (ProtoInv_frame w)].
    apply (ProtoInv_frame w); [done|done| |done].
    unfold announceDoor. by rewrite tripCues_click.
  - by apply tick_ProtoInv.
Qed.

(** X7: the cues of the trips follow one fixed order in every run, and the
    suspended invocation tells where in it they are ([protoOf]).  Trips are
    numbered 0, 1, 2, ... and their cues do not interleave.  A trip plays a
    door-close cue first exactly when the closure of its invocation holds
    the door open, and starts with its direction cue otherwise; the
    direction cue is the one planned from the closure's floor to the trip's
    target; no cue is played while floors are passed; the arrival cue names
    the trip's target, which is the target shown in [targetFloor]; the
    door-open cue ends the trip. *)
Theorem trip_cues_follow_protocol (ops : list Op) :
  let w := run ops init in
  protocol (Between 0) (tripCues w) = Some (protoOf w)
  /\ last (tripCues w) = lastCue (protoOf w)
  /\ (forall c f, suspended w = [c] -> pc c = AwaitArrival f ->
        last (tripCues w) = Some (trip c, arrive f)
        /\ targetFloor (hooks w) = Some f)
  /\ (forall c t, suspended w = [c] -> pc c = AwaitDoorClosed t ->
        last (tripCues w) = Some (trip c, door_close)
        /\ cl_isDoorOpen c = true).
Proof.
  intros w.
  assert (SchedInv w /\ LogInv w /\ ProtoInv w) as (HS & _ & HP & HC).
  { apply (run_invariant (fun w => SchedInv w /\ LogInv w /\ ProtoInv w)).
    - destruct init_inv as [? ?]. split; [done|]. split; [done|].
      split; [reflexivity|]. intros c Hc. by apply elem_of_nil in Hc.
    - intros o w0 (HS & HL & HI).
      destruct (step_inv o w0) as [? ?]; [done|].
      split; [done|]. split; [done|]. by apply step_ProtoInv. }
  pose proof (protocol_lastCue _ _ HP) as HL.
  split; [done|]. split; [done|]. split.
  - intros c f Hsus Hpc. rewrite HL. unfold protoOf, phase.
    rewrite Hsus, Hpc. split; [done|].
    unfold SchedInv, Running in HS. rewrite Hsus in HS.
    destruct HS as (_ & _ & _ & HO). rewrite Hpc in HO. simpl in HO. by destruct HO as (_ & _ & ?).
  - intros c t Hsus Hpc. rewrite HL. unfold protoOf, phase.
    rewrite Hsus, Hpc. split; [done|].
    specialize (HC c). rewrite Hsus in HC. unfold closing in HC.
    rewrite Hpc in HC. apply HC, list_elem_of_here.
Qed.

Lemma trip_cues_follow_protocol_witness :
  let w := run [SelectFloor "F3"; Tick 0; Tick 0; Tick 0; Tick 0] init in
  last (tripCues w) = Some (0%nat, arrive "F3")
  /\ targetFloor (hooks w) = Some "F3".
Proof.
  intros w.
  destruct (trip_cues_follow_protocol
              [SelectFloor "F3"; Tick 0; Tick 0; Tick 0; Tick 0])
    as (_ & _ & H & _).
  apply (H (mkCoroutine "F1" true (AwaitArrival "F3") 0) "F3");
    vm_compute; reflexivity.
Defined.

(** ** Audio cues *)























(** ** Labels *)

Lemma replaceF_prefix (n : string) : replaceF ("F" +:+ n) = n.
Proof. reflexivity. Qed.

(** X11: the display label [getFloorDisplay] and the spoken name
    [getFloorName] tell the registered floors apart (both are injective on
    [FLOORS]); for a floor named F followed by [n] the label is [n] and the
    spoken name is [n] followed by the floor character. *)
Theorem floor_labels (f g : string) :
  f ∈ FLOORS -> g ∈ FLOORS ->
  (getFloorDisplay f = getFloorDisplay g -> f = g)
  /\ (getFloorName f = getFloorName g -> f = g)
  /\ (forall n, getFloorDisplay ("F" +:+ n) = n)
  /\ (forall n, getFloorName ("F" +:+ n) = n +:+ "楼").
Proof.
  intros Hf Hg. split; [|split; [|split]].
  - revert Hf Hg. unfold FLOORS. rewrite !elem_of_cons, !elem_of_nil.
    intros Hf Hg.
    repeat (destruct Hf as [->|Hf]; [|]); try done;
      repeat (destruct Hg as [->|Hg]; [|]); try done;
      vm_compute; congruence.
  - revert Hf Hg. unfold FLOORS. rewrite !elem_of_cons, !elem_of_nil.
    intros Hf Hg.
    repeat (destruct Hf as [->|Hf]; [|]); try done;
      repeat (destruct Hg as [->|Hg]; [|]); try done;
      vm_compute; congruence.
  - intros n. unfold getFloorDisplay.
    rewrite !bool_decide_false by discriminate. reflexivity.
  - intros n. unfold getFloorName.
    rewrite !bool_decide_false by discriminate. reflexivity.
Qed.

Lemma floor_labels_witness :
  getFloorDisplay "F1" ≠ getFloorDisplay "F10"
  /\ getFloorName "F10" = "10楼".
Proof.
  assert (H1 : "F1" ∈ FLOORS) by (apply (bool_decide_unpack _); vm_compute; exact I).
  assert (H2 : "F10" ∈ FLOORS) by (apply (bool_decide_unpack _); vm_compute; exact I).
  destruct (floor_labels "F1" "F10" H1 H2) as (Hinj & _ & _ & Hname).
  split; [|exact (Hname "10")].
  intros E. specialize (Hinj E). discriminate Hinj.
Defined.

(** ** The button panel *)




(** ** What moves the cabin *)

Lemma processQueue_floor cf dopen w :
  currentFloor (hooks (processQueue cf dopen w)) = currentFloor (hooks w)
  /\ isMoving (hooks (processQueue cf dopen w)) = isMoving (hooks w).
Proof.
  unfold processQueue. destruct (_ || _); [done|].
  unfold loopTest. simpl. destruct (elevatorQueue w); [done|].
  by destruct dopen.
Qed.

Lemma resume_moves c w :
  currentFloor (hooks (resume c w).1) ≠ currentFloor (hooks w) ->
  exists t f rest, pc c = AwaitFloor t f rest
                   /\ currentFloor (hooks (resume c w).1) = f.
Proof.
  unfold resume.
  destruct (pc c) as [t|t d ci ti|t fl rest|t|] eqn:Hpc; simpl.
  - done.
  - by destruct (floorsToPass d ci ti).
  - intros _. exists t, fl, rest. split; [done|]. by destruct rest.
  - done.
  - unfold loopTest. destruct (elevatorQueue w); [done|].
    by destruct (cl_isDoorOpen c).
Qed.

(** X14: the cabin changes floor only by a timer expiry of the one suspended
    [processQueue] invocation, while [isMoving] is set, and the floor it
    reaches is the next floor of that invocation's route; no click ever
    changes the cabin's floor. *)
Theorem floor_changes_only_in_transit (ops : list Op) (o : Op) :
  let w := run ops init in
  currentFloor (hooks (step o w)) ≠ currentFloor (hooks w) ->
  (exists i, o = Tick i) /\ isMoving (hooks w) = true
  /\ exists c t rest,
       suspended w = [c]
       /\ pc c = AwaitFloor t (currentFloor (hooks (step o w))) rest.
Proof.
  intros w Hne. destruct o as [f|f|d| | | |i]; simpl in Hne.
  - exfalso. apply Hne. unfold handleFloorSelect. rewrite !initAudio_eq.
    destruct (_ && _ && _); [done|]. destruct (negb (bool_decide _)); [|done].
    simpl. destruct (negb _); [|done].
    by rewrite (proj1 (processQueue_floor _ _ _)).
  - exfalso. apply Hne. unfold handleOutsideFloorSelect. by rewrite initAudio_eq.
  - exfalso. apply Hne. unfold handleCallElevator. rewrite !initAudio_eq.
    destruct (_ || _); [|done]. simpl. destruct (negb _); [|done].
    by rewrite (proj1 (processQueue_floor _ _ _)).
  - exfalso. apply Hne. unfold toggleView. rewrite !initAudio_eq.
    by destruct (currentView _).
  - exfalso. apply Hne. unfold handleDoorOpen. rewrite !initAudio_eq.
    by destruct (negb _).
  - exfalso. apply Hne. unfold handleDoorClose. rewrite !initAudio_eq.
    by destruct (negb _).
  - split; [by exists i|].
    destruct (reachable_inv ops) as [HS _]. fold w in HS.
    destruct (tick_cases i w HS) as [Heq|(c & Hsus & -> & Heq)].
    { exfalso. apply Hne. simpl. by rewrite Heq. }
    simpl. rewrite Heq in *. simpl in Hne.
    destruct (resume_moves c w Hne) as (t & f & rest & Hpc & Hf).
    unfold SchedInv, Running in HS. rewrite Hsus in HS.
    destruct HS as (_ & _ & _ & Hph). rewrite Hpc in Hph.
    destruct Hph as (Hm & _). split; [done|].
    exists c, t, rest. split; [done|]. simpl. by rewrite Hf.
Qed.

Lemma floor_changes_only_in_transit_witness :
  let ops := [SelectFloor "F2"; Tick 0; Tick 0] in
  currentFloor (hooks (step (Tick 0) (run ops init))) = "F2"
  /\ isMoving (hooks (run ops init)) = true.
Proof.
  intros ops. split; [vm_compute; reflexivity|].
  destruct (floor_changes_only_in_transit ops (Tick 0)) as (_ & Hm & _);
    [|exact Hm].
  vm_compute. discriminate.
Defined.

(** ** Changing the view *)

(** X10: [toggleView].  Leaving the cabin view shows the outside view at the
    cabin's floor, so a call made there while the cabin is at rest is a call
    at the cabin's floor and changes neither the queue, the invocations, the
    target nor the door; returning to the cabin view keeps the outside floor;
    toggling twice restores the view; toggling never touches the queue, the
    invocations or the cues. *)
Theorem toggleView_then_call (d : Dir) (w : World) :
  let w1 := step ToggleView w in
  let w2 := step (CallElevator d) w1 in
  (currentView (hooks w) = inside ->
   currentView (hooks w1) = outside
   /\ outsideFloor (hooks w1) = currentFloor (hooks w)
   /\ (isMoving (hooks w) = false ->
       elevatorQueue w2 = elevatorQueue w /\ suspended w2 = suspended w
       /\ isProcessing w2 = isProcessing w
       /\ targetFloor (hooks w2) = targetFloor (hooks w)
       /\ isDoorOpen (hooks w2) = isDoorOpen (hooks w)))
  /\ (currentView (hooks w) = outside ->
      currentView (hooks w1) = inside
      /\ outsideFloor (hooks w1) = outsideFloor (hooks w))
  /\ currentView (hooks (step ToggleView w1)) = currentView (hooks w)
  /\ elevatorQueue w1 = elevatorQueue w /\ suspended w1 = suspended w
  /\ isProcessing w1 = isProcessing w /\ played w1 = played w.
Proof.
  simpl. unfold toggleView. rewrite !initAudio_eq.
  split; [|split; [|split]].
  - intros Hv. rewrite Hv. simpl. split; [done|]. split; [done|].
    intros Hm. unfold handleCallElevator. rewrite !initAudio_eq. simpl.
    rewrite Hm, bool_decide_true by done. done.
  - intros Hv. by rewrite Hv.
  - by destruct (currentView (hooks w)).
  - by destruct (currentView (hooks w)).
Qed.

Lemma toggleView_then_call_witness :
  let w2 := run [ToggleView; CallElevator up] init in
  elevatorQueue w2 = [] /\ isProcessing w2 = false.
Proof.
  destruct (toggleView_then_call up init) as ((_ & _ & H) & _); [reflexivity|].
  destruct H as (Hq & _ & Hp & _); [reflexivity|].
  exact (conj Hq Hp).
Defined.

(** ** Requests made during a trip *)

(** What the running invocation is made of, apart from the queue. *)
Lemma select_during_trip f w :
  isProcessing w = true ->
  handleFloorSelect f w = initAudio w
  \/ ((f ∉ selectedFloors (hooks w))
      /\ handleFloorSelect f w
         = setQueue (elevatorQueue w ++ [f])
             (setSelectedFloors (fun prev => prev ∪ {[f]}) (setAudioLoaded true w))).
Proof.
  intros Hp. unfold handleFloorSelect. rewrite !initAudio_eq.
  destruct (_ && _ && _); [by left|].
  destruct (bool_decide_reflect (f ∈ selectedFloors (hooks w))); simpl; [by left|].
  right. split; [done|]. by rewrite Hp.
Qed.

Lemma call_during_trip f d w :
  isProcessing w = true ->
  let noted := announceDirection None d
                 (setCallDirection (Some d)
                    (setOutsideFloor f (setAudioLoaded true w))) in
  (currentFloor (hooks w) = f /\ isMoving (hooks w) = false
   /\ handleCallElevator d (handleOutsideFloorSelect f w) = noted)
  \/ ((currentFloor (hooks w) ≠ f \/ isMoving (hooks w) = true)
      /\ handleCallElevator d (handleOutsideFloorSelect f w)
         = setQueue (f :: elevatorQueue w) noted).
Proof.
  intros Hp. unfold handleCallElevator, handleOutsideFloorSelect.
  rewrite !initAudio_eq. simpl.
  destruct (bool_decide_reflect (currentFloor (hooks w) = f)) as [E|E]; simpl.
  - destruct (isMoving (hooks w)) eqn:Hm; simpl.
    + right. split; [by right|]. by rewrite Hp.
    + left. done.
  - right. split; [by left|]. by rewrite Hp.
Qed.

(** X16: while a [processQueue] invocation is active, a cabin selection or a
    call from outside never disturbs the trip in flight: the suspended
    invocation, the cabin's floor, the display, the moving flag, the door,
    the direction, the target and the cues of the trips are unchanged, and
    the queue is unchanged or grows by one floor at its back or its front. *)
Theorem enqueue_never_interrupts (w : World) (ops : list Op) :
  isProcessing w = true ->
  (exists f, ops = selectFloor f) \/ (exists f d, ops = callFromOutside f d) ->
  let w' := run ops w in
  suspended w' = suspended w /\ isProcessing w' = true
  /\ currentFloor (hooks w') = currentFloor (hooks w)
  /\ displayFloor (hooks w') = displayFloor (hooks w)
  /\ isMoving (hooks w') = isMoving (hooks w)
  /\ isDoorOpen (hooks w') = isDoorOpen (hooks w)
  /\ direction (hooks w') = direction (hooks w)
  /\ targetFloor (hooks w') = targetFloor (hooks w)
  /\ tripCues w' = tripCues w
  /\ (elevatorQueue w' = elevatorQueue w
      \/ exists f, elevatorQueue w' = (elevatorQueue w ++ [f])%list
                   \/ elevatorQueue w' = f :: elevatorQueue w).
Proof.
  intros Hp [[f ->]|(f & d & ->)]; unfold selectFloor, callFromOutside, run; simpl.
  - destruct (select_during_trip f w Hp) as [->|[_ ->]].
    + rewrite initAudio_eq. simpl. repeat (split; [done|]). by left.
    + simpl. repeat (split; [done|]). right. exists f. by left.
  - destruct (call_during_trip f d w Hp) as [(_ & _ & ->)|[_ ->]].
    + simpl. repeat (split; [done|]).
      split; [unfold announceDirection; by rewrite tripCues_click|]. by left.
    + simpl. repeat (split; [done|]).
      split; [|right; exists f; by right].
      change (tripCues (setQueue _ ?x)) with (tripCues x).
      unfold announceDirection. by rewrite tripCues_click.
Qed.

Lemma enqueue_never_interrupts_witness :
  let w := run [SelectFloor "F5"; Tick 0; Tick 0] init in
  let w' := run (callFromOutside "F3" up) w in
  suspended w' = suspended w /\ isMoving (hooks w') = isMoving (hooks w).
Proof.
  intros w w'.
  destruct (enqueue_never_interrupts w (callFromOutside "F3" up))
    as (Hs & _ & _ & _ & Hm & _).
  - vm_compute; reflexivity.
  - right. by exists "F3", up.
  - exact (conj Hs Hm).
Defined.

(** X15: order of service while an invocation is active, read off the
    arrival announcements once the timers have expired.  A call from outside
    is announced right after the target in flight and before every floor
    queued earlier ([unshift]), unless the cabin rests (is not moving) at
    the caller's floor: then the call adds no arrival.  A cabin selection
    is announced after every floor queued earlier ([push]) when its button
    is not lit and the same-floor test of line 90 does not filter it, that
    is, unless the cabin rests at that floor with the door open; a selection
    that is lit or filtered adds no arrival. *)
Theorem service_order (ops : list Op) (f : string) (d : Dir) :
  let w := run ops init in
  let served := (arrivals (played w) ++ announcing w)%list in
  let resting :=
    f = currentFloor (hooks w) /\ isMoving (hooks w) = false in
  isProcessing w = true ->
  (¬ resting ->
   arrivals (played (drain (run (callFromOutside f d) w)))
   = (served ++ f :: elevatorQueue w)%list)
  /\ (resting ->
      arrivals (played (drain (run (callFromOutside f d) w)))
      = (served ++ elevatorQueue w)%list)
  /\ ((f ∉ selectedFloors (hooks w)) ->
      ¬ (resting /\ isDoorOpen (hooks w) = true) ->
      arrivals (played (drain (run (selectFloor f) w)))
      = (served ++ elevatorQueue w ++ [f])%list)
  /\ (f ∈ selectedFloors (hooks w)
      \/ (resting /\ isDoorOpen (hooks w) = true) ->
      arrivals (played (drain (run (selectFloor f) w)))
      = (served ++ elevatorQueue w)%list).
Proof.
  intros w served resting Hp. subst served resting.
  assert (Hdrain : forall ops1,
            arrivals (played (drain (run ops1 w)))
            = (arrivals (played (run ops1 w)) ++ pendingTargets (run ops1 w))%list).
  { intros ops1. unfold w. rewrite <- run_app_init.
    destruct (drain_facts _ (reachable_single_pool (ops ++ ops1))) as (_ & Hc & _).
    destruct (drain_idle (ops ++ ops1)) as (_ & _ & Hq & _).
    by rewrite Hq, app_nil_r in Hc. }
  assert (Hnoop : handleFloorSelect f w = initAudio w ->
            arrivals (played (drain (run (selectFloor f) w)))
            = ((arrivals (played w) ++ announcing w) ++ elevatorQueue w)%list).
  { intros E. rewrite Hdrain. unfold selectFloor, run; simpl. rewrite E.
    rewrite initAudio_eq. unfold pendingTargets, announcing. simpl.
    by rewrite app_assoc. }
  split; [|split; [|split]].
  - intros Hcase. rewrite Hdrain. unfold callFromOutside, run; simpl.
    destruct (call_during_trip f d w Hp) as [(E & Hm & _)|[_ ->]].
    { exfalso. by apply Hcase. }
    unfold pendingTargets, announcing. simpl.
    unfold announceDirection. rewrite arrivals_snoc.
    destruct d; simpl; by rewrite app_nil_r, app_assoc.
  - intros [E Hm]. rewrite Hdrain. unfold callFromOutside, run; simpl.
    destruct (call_during_trip f d w Hp) as [(_ & _ & ->)|[Hcase _]].
    2:{ exfalso. destruct Hcase as [Hne|Hm']; [done|congruence]. }
    unfold pendingTargets, announcing. simpl.
    unfold announceDirection. rewrite arrivals_snoc.
    destruct d; simpl; by rewrite app_nil_r, app_assoc.
  - intros Hsel Hguard. rewrite Hdrain. unfold selectFloor, run; simpl.
    unfold handleFloorSelect. rewrite !initAudio_eq.
    assert (bool_decide (f = currentFloor (hooks w)) && negb (isMoving (hooks w))
            && isDoorOpen (hooks w) = false) as ->.
    { destruct (bool_decide_reflect (f = currentFloor (hooks w))) as [E|E]; [|done].
      destruct (isMoving (hooks w)) eqn:Hm; [done|].
      destruct (isDoorOpen (hooks w)) eqn:Hd; [|done].
      exfalso. by apply Hguard. }
    rewrite (bool_decide_false _ Hsel). simpl. rewrite Hp. simpl.
    unfold pendingTargets, announcing. simpl. by rewrite !app_assoc.
  - intros [Hsel|[[E Hm] Hd]]; apply Hnoop.
    + by apply select_lit_noop.
    + apply select_same_floor_noop. by rewrite E, Hm, Hd, bool_decide_true.
Qed.

Lemma service_order_witness :
  let w := run [SelectFloor "F5"; SelectFloor "F3"] init in
  let v := run [SelectFloor "F2"; Tick 0; Tick 0; Tick 0; Tick 0] init in
  arrivals (played (drain (run (callFromOutside "B1" down) w)))
  = ["F5"; "B1"; "F3"]
  /\ arrivals (played (drain (run (selectFloor "F2") v))) = ["F2"].
Proof.
  intros w v. split.
  - destruct (service_order [SelectFloor "F5"; SelectFloor "F3"] "B1" down)
      as [H _]; [vm_compute; reflexivity|].
    refine (eq_trans (H _) _).
    + intros [E _]. vm_compute in E. discriminate E.
    + vm_compute. reflexivity.
  - destruct (service_order [SelectFloor "F2"; Tick 0; Tick 0; Tick 0; Tick 0]
                "F2" up) as (_ & _ & _ & H); [vm_compute; reflexivity|].
    refine (eq_trans (H _) _).
    + right. vm_compute. repeat split.
    + vm_compute. reflexivity.
Defined.

(** ** The way back *)

Lemma slice_snoc {A} (l : list A) (a b : Z) (x : A) :
  (0 <= a)%Z -> (a <= b)%Z -> l !! Z.to_nat b = Some x ->
  slice l a (b + 1) = (slice l a b ++ [x])%list.
Proof.
  intros Ha Hab Hx. pose proof (lookup_lt_Some _ _ _ Hx) as Hb.
  rewrite !slice_in_range by lia.
  replace (Z.to_nat (b + 1 - a)) with (S (Z.to_nat (b - a))) by lia.
  erewrite take_S_r; [done|]. rewrite lookup_drop, <- Hx. f_equal. lia.
Qed.

Lemma slice_cons {A} (l : list A) (a b : Z) (x : A) :
  (0 <= a)%Z -> (a < b)%Z -> (b <= Z.of_nat (length l))%Z ->
  l !! Z.to_nat a = Some x ->
  slice l a b = x :: slice l (a + 1) b.
Proof.
  intros Ha Hab Hb Hx. rewrite !slice_in_range by lia.
  replace (Z.to_nat (b - a)) with (S (Z.to_nat (b - (a + 1)))) by lia.
  replace (Z.to_nat (a + 1)) with (S (Z.to_nat a)) by lia.
  by rewrite (drop_S _ _ _ Hx).
Qed.

(** X17: the way back.  For two different registered floors the route
    planned from B to A, with B put in front, is the reverse of the route
    planned from A to B with A put in front; both pass the same number of
    floors, and the two directions are opposite. *)
Theorem plan_way_back (A B : string) :
  A ∈ FLOORS -> B ∈ FLOORS -> A ≠ B ->
  B :: (plan B A).2 = reverse (A :: (plan A B).2)
  /\ length (plan B A).2 = length (plan A B).2
  /\ (plan B A).1 ≠ (plan A B).1.
Proof.
  intros HA HB Hne.
  destruct (getFloorIndex_elem A HA) as [RA LA].
  destruct (getFloorIndex_elem B HB) as [RB LB].
  assert (Hdist : getFloorIndex A ≠ getFloorIndex B).
  { intros E. apply Hne. by apply (indexOf_inj FLOORS). }
  assert (Hlen : Z.of_nat (length FLOORS) = 12%Z) by reflexivity.
  assert (Hmain : forall X Y : string,
            (0 <= getFloorIndex X < getFloorIndex Y)%Z ->
            (getFloorIndex Y < 12)%Z ->
            FLOORS !! Z.to_nat (getFloorIndex X) = Some X ->
            FLOORS !! Z.to_nat (getFloorIndex Y) = Some Y ->
            plan X Y = (up, slice FLOORS (getFloorIndex X + 1) (getFloorIndex Y + 1))
            /\ plan Y X = (down, reverse (slice FLOORS (getFloorIndex X) (getFloorIndex Y)))
            /\ Y :: reverse (slice FLOORS (getFloorIndex X) (getFloorIndex Y))
               = reverse (X :: slice FLOORS (getFloorIndex X + 1) (getFloorIndex Y + 1))).
  { intros X Y HXY HY LX LY. unfold plan, planDir. simpl.
    destruct (Z.gtb_spec (getFloorIndex Y) (getFloorIndex X)); [|lia].
    destruct (Z.gtb_spec (getFloorIndex X) (getFloorIndex Y)); [lia|].
    split; [done|]. split; [done|].
    rewrite <- (slice_cons FLOORS (getFloorIndex X) (getFloorIndex Y + 1) X)
      by (done || lia).
    rewrite (slice_snoc FLOORS (getFloorIndex X) (getFloorIndex Y) Y)
      by (done || lia).
    by rewrite reverse_snoc. }
  destruct (Z.lt_ge_cases (getFloorIndex A) (getFloorIndex B)) as [Hlt|Hge].
  - destruct (Hmain A B) as (-> & -> & Heq); [lia|lia|done|done|].
    simpl. split; [done|]. split; [|done].
    apply (f_equal length) in Heq. rewrite length_reverse in Heq.
    simpl in Heq. lia.
  - destruct (Hmain B A) as (-> & -> & Heq); [lia|lia|done|done|].
    simpl. split; [by rewrite Heq, reverse_involutive|]. split; [|done].
    apply (f_equal length) in Heq. rewrite length_reverse in Heq.
    simpl in Heq. lia.
Qed.

Lemma plan_way_back_witness :
  "F4" :: (plan "F4" "F1").2 = reverse ("F1" :: (plan "F1" "F4").2).
Proof.
  apply (plan_way_back "F1" "F4").
  - apply (bool_decide_unpack _). vm_compute. exact I.
  - apply (bool_decide_unpack _). vm_compute. exact I.
  - discriminate.
Defined.
